(** * TerraGuard realtime view synchronisation: a shallow embedding

    The development follows [frontend/src/hooks/useSupabaseRealtime.js]
    (the [useSupabaseRealtime] hook: field mapping, merge rule, snapshot
    query, change-stream filter, connection status handling) and the
    FastAPI fallback of [getRecommendations] in the API service module.

    JavaScript values are modelled as far as the hook inspects them:
    scalars with the language's truthiness, strict equality and relational
    comparison; records as finite maps from property names to scalars;
    arrays as lists.  Strings are [string]s, one character per code unit. *)

From Stdlib Require Import QArith.
From stdpp Require Import gmap strings list sorting pretty.

(** ** JavaScript scalars *)

Module JS.

(** A Number: the finite doubles are rationals, and the three special
    values are kept apart. *)
Inductive number := NaN | NegInf | Fin (q : Q) | PosInf.

Inductive value :=
  | VUndefined
  | VNull
  | VBool (b : bool)
  | VNum (n : number)
  | VStr (s : string).

(** [Number::lessThan], with the result [undefined] read as [false]. *)
Definition num_lt (a b : number) : bool :=
  match a, b with
  | NaN, _ | _, NaN => false
  | _, NegInf => false
  | NegInf, _ => true
  | PosInf, _ => false
  | Fin _, PosInf => true
  | Fin x, Fin y => negb (Qle_bool y x)
  end.

(** [Number::equal]. *)
Definition num_eq (a b : number) : bool :=
  match a, b with
  | NegInf, NegInf | PosInf, PosInf => true
  | Fin x, Fin y => Qeq_bool x y
  | _, _ => false
  end.

Definition num_truthy (n : number) : bool :=
  match n with
  | NaN => false
  | Fin q => negb (Qeq_bool q 0)
  | NegInf | PosInf => true
  end.

(** [ToBoolean]: what [if (v)], [!v], [v || w] and [v ? a : b] test. *)
Definition ToBoolean (v : value) : bool :=
  match v with
  | VUndefined | VNull => false
  | VBool b => b
  | VNum n => num_truthy n
  | VStr s => negb (String.eqb s "")
  end.

(** [a || b] *)
Definition or_else (a b : value) : value := if ToBoolean a then a else b.

(** [a === b] *)
Definition strict_eq (a b : value) : bool :=
  match a, b with
  | VUndefined, VUndefined | VNull, VNull => true
  | VBool x, VBool y => Bool.eqb x y
  | VNum x, VNum y => num_eq x y
  | VStr x, VStr y => String.eqb x y
  | _, _ => false
  end.


(** The comparator value of a three-way comparison. *)
Definition sign_of (c : comparison) : Z :=
  match c with Lt => -1 | Eq => 0 | Gt => 1 end.

(** [l.slice(0, n)] for an integer [n]: a negative end counts from the
    end of the array. *)
Definition slice0 {A} (l : list A) (n : Z) : list A :=
  if (n <? 0)%Z
  then take (Z.to_nat (Z.max (Z.of_nat (length l) + n) 0)) l
  else take (Z.to_nat n) l.

(** The stable sorted order of an array: the element [x] moves behind [y]
    exactly when [cmp x y > 0], so equal elements keep their order. *)
Section Sort.
Context {A : Type} (cmp : A → A → Z).

Fixpoint sort_insert (x : A) (l : list A) : list A :=
  match l with
  | [] => [x]
  | y :: l' => if (0 <? cmp x y)%Z then y :: sort_insert x l' else x :: l
  end.

Definition sort_by (l : list A) : list A := foldr sort_insert [] l.

(** A consistent comparator for the values of [l], as ECMAScript defines
    it: equality by [cmp] is an equivalence, and [<] and [>] by [cmp] are
    transitive. *)
Definition consistent (l : list A) : Prop :=
  ∀ a b c, a ∈ l → b ∈ l → c ∈ l →
    cmp a a = 0%Z
    ∧ (cmp a b = 0%Z → cmp b a = 0%Z)
    ∧ (cmp a b = 0%Z → cmp b c = 0%Z → cmp a c = 0%Z)
    ∧ ((cmp a b < 0)%Z → (cmp b c < 0)%Z → (cmp a c < 0)%Z)
    ∧ ((cmp a b > 0)%Z → (cmp b c > 0)%Z → (cmp a c > 0)%Z).
End Sort.

(** What the host engine provides and the hook only calls: the conversion
    of a string to a number (used when a string is compared with a
    non-string), the printing of a number (used in template literals), and
    [l.sort(cmp)].  Of the sort ECMAScript fixes that the result holds the
    elements of the array, and that for a consistent comparator it is their
    stable sorted order; for any other comparator the order is left to the
    engine. *)
Class Engine := {
  StringToNumber : string → number;
  NumberToString : number → string;
  Array_sort : ∀ {A : Type}, (A → A → Z) → list A → list A;
  Array_sort_perm : ∀ {A : Type} (cmp : A → A → Z) (l : list A),
    Array_sort cmp l ≡ₚ l;
  Array_sort_consistent : ∀ {A : Type} (cmp : A → A → Z) (l : list A),
    consistent cmp l → Array_sort cmp l = sort_by cmp l;
}.

Section WithEngine.
Context `{!Engine}.

Definition ToNumber (v : value) : number :=
  match v with
  | VUndefined => NaN
  | VNull => Fin 0
  | VBool b => if b then Fin 1 else Fin 0
  | VNum n => n
  | VStr s => StringToNumber s
  end.

(** [a < b]: two strings are compared by code units, anything else as
    numbers. *)
Definition less (a b : value) : bool :=
  match a, b with
  | VStr x, VStr y => String.ltb x y
  | _, _ => num_lt (ToNumber a) (ToNumber b)
  end.

(** [a > b] *)
Definition greater (a b : value) : bool := less b a.

(** [`${v}`] *)
Definition ToString (v : value) : string :=
  match v with
  | VUndefined => "undefined"
  | VNull => "null"
  | VBool b => if b then "true" else "false"
  | VNum n => NumberToString n
  | VStr s => s
  end.
End WithEngine.

End JS.

Import JS.

(** A record: an object whose properties hold scalars.  A property that is
    absent reads as [undefined]. *)
Abbreviation record := (gmap string value).

Definition prop (r : record) (k : string) : value := default VUndefined (r !! k).

(** ** The hook's static data and the field mapping *)

(** [TABLE_MAPPING] is a plain object: besides its six own properties a
    lookup finds what it inherits from [Object.prototype], a function or
    object, which is truthy and equal to no string. *)
Definition TABLE_MAPPING : gmap string string :=
  <["health" := "land_health"]>
  (<["risk" := "degradation_risk"]>
  (<["climate_forecast" := "climate_data"]>
  (<["weather_realtime" := "climate_data"]>
  (<["alerts" := "alerts"]>
  (<["recommendations" := "recommendations"]> ∅))))).

Definition prototype_names : list string :=
  ["constructor"; "hasOwnProperty"; "isPrototypeOf"; "propertyIsEnumerable";
   "toLocaleString"; "toString"; "valueOf"; "__proto__";
   "__defineGetter__"; "__defineSetter__"; "__lookupGetter__";
   "__lookupSetter__"].

(** The value of [actualTable]: a table name, or the inherited value found
    under the view's name. *)
Inductive table :=
  | Named (name : string)
  | Inherited (key : string).

(** [TABLE_MAPPING[viewName] || viewName] *)
Definition actualTable (viewName : string) : table :=
  match TABLE_MAPPING !! viewName with
  | Some t => if String.eqb t "" then Named viewName else Named t
  | None =>
      if bool_decide (viewName ∈ prototype_names)
      then Inherited viewName
      else Named viewName
  end.

(** [transformData] only compares its table argument by [===] with three
    string literals.  An inherited value equals none of them, and neither
    does the name it is found under, which stands for it there. *)
Definition table_name (t : table) : string :=
  match t with
  | Named name => name
  | Inherited key => key
  end.
Coercion table_name : table >-> string.

(** [transformData] on an object ([{...data, k: v}] keeps every property of
    [data] and sets [k]). *)
Definition transformRecord (tableName : string) (data : record) : record :=
  if String.eqb tableName "land_health" then
    <["updated_at" := or_else (prop data "observation_date") (prop data "updated_at")]>
    (<["created_at" := or_else (prop data "observation_date") (prop data "created_at")]>
     data)
  else if String.eqb tableName "degradation_risk" then
    <["updated_at" := or_else (prop data "assessment_date") (prop data "updated_at")]>
    (<["created_at" := or_else (prop data "assessment_date") (prop data "created_at")]>
    (<["factors" := prop data "risk_factors"]>
    (<["risk_score" := prop data "total_risk_score"]>
     data)))
  else if String.eqb tableName "climate_data" then
    <["temperature" := or_else (prop data "temperature") (prop data "temp_avg")]>
    (<["timestamp" := prop data "date"]>
     data)
  else data.

(** [transformData(tableName, data)]: [None] is a null or undefined payload
    side, returned as it is by [if (!data) return data]. *)
Definition transformData (tableName : string) (data : option record) : option record :=
  match data with
  | None => None
  | Some d => Some (transformRecord tableName d)
  end.

(** ** The subscription request and the merge rule *)

(** [parsedOrderBy]: the [orderBy] option after its JSON round trip; an
    absent option is the empty object, both fields missing. *)
Record orderBy := {
  column : option string;
  ascending : option bool;
}.

(** The arguments of one activation of the hook.  [parsedFilter] lists the
    properties of the filter object in [Object.keys] order; [stableLimit] is
    [None] when [options.limit] is undefined. *)
Record request := {
  viewName : string;
  parsedFilter : list (string * value);
  parsedOrderBy : orderBy;
  stableLimit : option Z;
}.

(** [if (stableLimit)] *)
Definition limit_set (limit : option Z) : option Z :=
  match limit with
  | Some n => if (n =? 0)%Z then None else Some n
  | None => None
  end.

(** [parsedOrderBy && parsedOrderBy.column] *)
Definition order_column (ob : orderBy) : option string :=
  match column ob with
  | Some c => if String.eqb c "" then None else Some c
  | None => None
  end.

(** [parsedOrderBy.ascending ? ... : ...] *)
Definition is_ascending (ob : orderBy) : bool := default false (ascending ob).

(** A change-stream payload; [new] and [old] are [None] when null or
    undefined. *)
Record payload := {
  eventType : string;
  new : option record;
  old : option record;
}.

Section Merge.
Context `{!Engine}.

(** The comparator handed to [updated.sort]. *)
Definition comparator (col : string) (asc : bool) (a b : record) : Z :=
  let aVal := prop a col in
  let bVal := prop b col in
  let compare := (if greater aVal bVal then 1 else if less aVal bVal then -1 else 0)%Z in
  (if asc then compare else - compare)%Z.

(** "Re-sort if orderBy is specified" *)
Definition resort (ob : orderBy) (updated : list record) : list record :=
  match order_column ob with
  | Some col => Array_sort (comparator col (is_ascending ob)) updated
  | None => updated
  end.

(** The three branches of the updater, before the re-sort. *)
Definition merge (limit : option Z) (kind : string)
    (transformedNew transformedOld : option record) (prev : list record) : list record :=
  match String.eqb kind "INSERT", transformedNew with
  | true, Some n =>
      let updated := n :: prev in
      match limit_set limit with
      | Some l => slice0 updated l
      | None => updated
      end
  | _, _ =>
  match String.eqb kind "UPDATE", transformedNew with
  | true, Some n =>
      (λ r, if strict_eq (prop r "id") (prop n "id") then n else r) <$> prev
  | _, _ =>
  match String.eqb kind "DELETE", transformedOld with
  | true, Some o =>
      filter (λ r, negb (strict_eq (prop r "id") (prop o "id"))) prev
  | _, _ => prev
  end end end.

(** The [postgres_changes] callback: the function passed to [setData]. *)
Definition applyChange (req : request) (p : payload) (prev : list record) : list record :=
  let table := actualTable (viewName req) in
  let transformedNew := transformData table (new p) in
  let transformedOld := transformData table (old p) in
  resort (parsedOrderBy req) (merge (stableLimit req) (eventType p) transformedNew transformedOld prev).

End Merge.

(** ** The snapshot query and the change-stream filter *)

(** The query the builder [supabase.from(view).select('*')] accumulates. *)
Record query := {
  q_from : string;
  q_eq : list (string * value);
  q_order : option (string * bool);
  q_limit : option Z;
}.

Definition from_select (view : string) : query :=
  {| q_from := view; q_eq := []; q_order := None; q_limit := None |}.

(** [query.eq(key, value)] *)
Definition q_add_eq (q : query) (kv : string * value) : query :=
  {| q_from := q_from q; q_eq := q_eq q ++ [kv];
     q_order := q_order q; q_limit := q_limit q |}.

(** [query.order(column, { ascending })] *)
Definition q_set_order (q : query) (c : string) (asc : bool) : query :=
  {| q_from := q_from q; q_eq := q_eq q;
     q_order := Some (c, asc); q_limit := q_limit q |}.

(** [query.limit(n)] *)
Definition q_set_limit (q : query) (n : Z) : query :=
  {| q_from := q_from q; q_eq := q_eq q;
     q_order := q_order q; q_limit := Some n |}.

(** The query [setup] awaits: every entry of the filter becomes an equality
    predicate, then the ordering ([ascending ?? false]) and the limit. *)
Definition snapshotQuery (req : request) : query :=
  let query := from_select (viewName req) in
  let query := foldl q_add_eq query (parsedFilter req) in
  let query :=
    match order_column (parsedOrderBy req) with
    | Some c => q_set_order query c (default false (ascending (parsedOrderBy req)))
    | None => query
    end in
  match limit_set (stableLimit req) with
  | Some n => q_set_limit query n
  | None => query
  end.

(** [obj[k]] on an object given by its entries. *)
Fixpoint entry (o : list (string * value)) (k : string) : value :=
  match o with
  | [] => VUndefined
  | (k', v) :: o' => if String.eqb k' k then v else entry o' k
  end.

(** The options of [.on('postgres_changes', ...)]; [ch_filter] is [None]
    when [filterString] stays undefined. *)
Record postgres_changes := {
  ch_event : string;
  ch_schema : string;
  ch_table : table;
  ch_filter : option string;
}.

Section Channel.
Context `{!Engine}.

(** "Build filter string for Supabase realtime" *)
Definition filterString (parsedFilter : list (string * value)) : option string :=
  match parsedFilter.*1 with
  | [] => None
  | firstKey :: _ =>
      let firstValue := entry parsedFilter firstKey in
      Some (firstKey +:+ "=eq." +:+ ToString firstValue)
  end.

Definition channelOptions (req : request) : postgres_changes :=
  {| ch_event := "*"; ch_schema := "public";
     ch_table := actualTable (viewName req);
     ch_filter := filterString (parsedFilter req) |}.

End Channel.

(** ** The handle: the hook's state cells, refs and pending work *)

(** [data], [loading], [connected] are the [useState] cells; [channelRef]
    and [retryTimeout] the two refs.  [channels] are the channels opened on
    the client and not removed, [timers] the timeouts set and neither fired
    nor cleared; [fetching] and [removing] count the [setup] calls suspended
    at [await query] and at [await supabase.removeChannel(...)].  Channel
    and timer identifiers are positive, hence truthy. *)
Record handle := {
  data : list record;
  loading : bool;
  connected : bool;
  channelRef : option positive;
  retryTimeout : option positive;
  channels : list positive;
  timers : list positive;
  fetching : nat;
  removing : nat;
  fresh : positive;
}.

(** The state at mount: [useState([])], [useState(true)], [useState(false)],
    [useRef(null)] twice. *)
Definition mounted : handle :=
  {| data := []; loading := true; connected := false;
     channelRef := None; retryTimeout := None;
     channels := []; timers := []; fetching := 0; removing := 0; fresh := 1 |}.

(** What the awaited snapshot query settles to: [{ data: initial, error }]. *)
Inductive response :=
  | Ok (initial : option (list record))
  | Failed.

Inductive event :=
  | Activate
  | Deactivate
  | SnapshotSettles (res : response)
  | RemovalSettles (ok : bool)
  | Status (status : string)
  | Change (p : payload)
  | TimerFires (t : positive).

Definition without (c : positive) (l : list positive) : list positive :=
  filter (λ x, x ≠ c) l.

(** [setup()] up to its first suspension: the query is issued and awaited. *)
Definition setup (h : handle) : handle :=
  {| data := data h; loading := loading h; connected := connected h;
     channelRef := channelRef h; retryTimeout := retryTimeout h;
     channels := channels h; timers := timers h;
     fetching := S (fetching h); removing := removing h; fresh := fresh h |}.

(** [supabase.channel(name).on(...).subscribe(...)] and
    [channelRef.current = channel] *)
Definition openChannel (h : handle) : handle :=
  {| data := data h; loading := loading h; connected := connected h;
     channelRef := Some (fresh h); retryTimeout := retryTimeout h;
     channels := fresh h :: channels h; timers := timers h;
     fetching := fetching h; removing := removing h;
     fresh := Pos.succ (fresh h) |}.

(** The [catch] block of [setup]. *)
Definition setupFailed (h : handle) : handle :=
  {| data := data h; loading := false; connected := false;
     channelRef := channelRef h; retryTimeout := retryTimeout h;
     channels := channels h; timers := timers h;
     fetching := fetching h; removing := removing h; fresh := fresh h |}.

(** [setup] resumed after [await query]. *)
Definition snapshotSettles (res : response) (h : handle) : handle :=
  match fetching h with
  | O => h
  | S k =>
      match res with
      | Failed =>
          setupFailed
            {| data := data h; loading := loading h; connected := connected h;
               channelRef := channelRef h; retryTimeout := retryTimeout h;
               channels := channels h; timers := timers h;
               fetching := k; removing := removing h; fresh := fresh h |}
      | Ok initial =>
          match channelRef h with
          | Some c =>
              {| data := default [] initial; loading := false;
                 connected := connected h;
                 channelRef := channelRef h; retryTimeout := retryTimeout h;
                 channels := without c (channels h); timers := timers h;
                 fetching := k; removing := S (removing h); fresh := fresh h |}
          | None =>
              openChannel
                {| data := default [] initial; loading := false;
                   connected := connected h;
                   channelRef := None; retryTimeout := retryTimeout h;
                   channels := channels h; timers := timers h;
                   fetching := k; removing := removing h; fresh := fresh h |}
          end
      end
  end.

(** [setup] resumed after [await supabase.removeChannel(...)]. *)
Definition removalSettles (ok : bool) (h : handle) : handle :=
  match removing h with
  | O => h
  | S k =>
      let h' :=
        {| data := data h; loading := loading h; connected := connected h;
           channelRef := if ok then None else channelRef h;
           retryTimeout := retryTimeout h;
           channels := channels h; timers := timers h;
           fetching := fetching h; removing := k; fresh := fresh h |} in
      if ok then openChannel h' else setupFailed h'
  end.

(** The callback given to [.subscribe]. *)
Definition onStatus (status : string) (h : handle) : handle :=
  if String.eqb status "SUBSCRIBED" then
    {| data := data h; loading := loading h; connected := true;
       channelRef := channelRef h; retryTimeout := None;
       channels := channels h;
       timers := match retryTimeout h with
                 | Some t => without t (timers h)
                 | None => timers h
                 end;
       fetching := fetching h; removing := removing h; fresh := fresh h |}
  else if String.eqb status "CLOSED" || String.eqb status "CHANNEL_ERROR" then
    match retryTimeout h with
    | Some _ =>
        {| data := data h; loading := loading h; connected := false;
           channelRef := channelRef h; retryTimeout := retryTimeout h;
           channels := channels h; timers := timers h;
           fetching := fetching h; removing := removing h; fresh := fresh h |}
    | None =>
        {| data := data h; loading := loading h; connected := false;
           channelRef := channelRef h; retryTimeout := Some (fresh h);
           channels := channels h; timers := fresh h :: timers h;
           fetching := fetching h; removing := removing h;
           fresh := Pos.succ (fresh h) |}
    end
  else if String.eqb status "TIMED_OUT" then
    {| data := data h; loading := loading h; connected := false;
       channelRef := channelRef h; retryTimeout := retryTimeout h;
       channels := channels h; timers := timers h;
       fetching := fetching h; removing := removing h; fresh := fresh h |}
  else h.

(** The function given to [setTimeout]; it runs only for a pending timer. *)
Definition timerFires (t : positive) (h : handle) : handle :=
  if bool_decide (t ∈ timers h) then
    setup
      {| data := data h; loading := loading h; connected := connected h;
         channelRef := channelRef h; retryTimeout := None;
         channels := channels h; timers := without t (timers h);
         fetching := fetching h; removing := removing h; fresh := fresh h |}
  else h.

(** The function the effect returns. *)
Definition cleanup (h : handle) : handle :=
  {| data := data h; loading := loading h; connected := connected h;
     channelRef := None; retryTimeout := None;
     channels := match channelRef h with
                 | Some c => without c (channels h)
                 | None => channels h
                 end;
     timers := match retryTimeout h with
               | Some t => without t (timers h)
               | None => timers h
               end;
     fetching := fetching h; removing := removing h; fresh := fresh h |}.

Section Lifecycle.
Context `{!Engine} (req : request).

Definition onChange (p : payload) (h : handle) : handle :=
  {| data := applyChange req p (data h); loading := loading h;
     connected := connected h;
     channelRef := channelRef h; retryTimeout := retryTimeout h;
     channels := channels h; timers := timers h;
     fetching := fetching h; removing := removing h; fresh := fresh h |}.

Definition step (h : handle) (e : event) : handle :=
  match e with
  | Activate => setup h
  | Deactivate => cleanup h
  | SnapshotSettles res => snapshotSettles res h
  | RemovalSettles ok => removalSettles ok h
  | Status s => onStatus s h
  | Change p => onChange p h
  | TimerFires t => timerFires t h
  end.

Definition run (es : list event) : handle := foldl step mounted es.

End Lifecycle.

(** ** The recommendation service's response envelope *)

(** A parsed response body; [JUndefined] is what a missing property reads
    as.  An object lists its properties once each. *)
#[warnings="-register-all"]
Inductive json :=
  | JUndefined
  | JNull
  | JBool (b : bool)
  | JNumber (n : number)
  | JString (s : string)
  | JArray (items : list json)
  | JObject (props : list (string * json)).

Fixpoint props_get (o : list (string * json)) (k : string) : json :=
  match o with
  | [] => JUndefined
  | (k', v) :: o' => if String.eqb k' k then v else props_get o' k
  end.

(** [v?.k] for the property names the decoder reads ([data],
    [recommendations]): only an object has them. *)
Definition opt_member (v : json) (k : string) : json :=
  match v with
  | JObject o => props_get o k
  | _ => JUndefined
  end.

Definition json_truthy (v : json) : bool :=
  match v with
  | JUndefined | JNull => false
  | JBool b => b
  | JNumber n => num_truthy n
  | JString s => negb (String.eqb s "")
  | JArray _ | JObject _ => true
  end.

(** [a || b] *)
Definition json_or (a b : json) : json := if json_truthy a then a else b.

(** [Array.isArray(v)] *)
Definition isArray (v : json) : bool :=
  match v with JArray _ => true | _ => false end.

(** [typeof v === 'object'] *)
Definition typeof_object (v : json) : bool :=
  match v with JNull | JArray _ | JObject _ => true | _ => false end.

(** The FastAPI fallback of [getRecommendations], from [response.data] to
    the [data] it returns. *)
Definition decodeRecommendations (response_data : json) : json :=
  let recommendations :=
    json_or (opt_member (opt_member response_data "data") "data")
   (json_or (opt_member response_data "data")
   (json_or (opt_member response_data "recommendations")
   (json_or response_data
            (JArray [])))) in
  if negb (isArray recommendations) then
    if json_truthy recommendations && typeof_object recommendations
    then JArray [recommendations]
    else JArray []
  else recommendations.

(** The candidate paths of the decoder, in the order they are tried. *)
Definition candidates (response_data : json) : list json :=
  [ opt_member (opt_member response_data "data") "data";
    opt_member response_data "data";
    opt_member response_data "recommendations";
    response_data ].

(** ** The API service *)

(** What an awaited call settles to; a rejection carries the error's
    message. *)
Inductive settled (A : Type) :=
  | Fulfilled (a : A)
  | Rejected (e : string).
Arguments Fulfilled {A} a.
Arguments Rejected {A} e.

(** The object [{ data }] or [{ data, error }] the service functions
    return; [r_error] is [None] when the property is absent or null. *)
Record reply := {
  r_data : json;
  r_error : option string;
}.

(** The reply as the caller reads it. *)
Definition reply_json (r : reply) : json :=
  JObject (("data", r_data r) ::
           match r_error r with
           | Some e => [("error", JString e)]
           | None => []
           end).

(** In each function below [sb] is what the Supabase query settles to
    ([Rejected] also when it resolves with an [error], which the function
    throws) and [api] what the FastAPI request of the [catch] block settles
    to, with [response.data] as its value. *)
Definition getLatestHealth (sb api : settled json) : settled reply :=
  match sb with
  | Fulfilled data => Fulfilled {| r_data := data; r_error := None |}
  | Rejected error =>
      match api with
      | Fulfilled response_data =>
          Fulfilled {| r_data := response_data; r_error := None |}
      | Rejected apiError =>
          Fulfilled {| r_data := JNull; r_error := Some error |}
      end
  end.

Definition getLatestRisk (sb api : settled json) : settled reply :=
  match sb with
  | Fulfilled data => Fulfilled {| r_data := data; r_error := None |}
  | Rejected error =>
      match api with
      | Fulfilled response_data =>
          Fulfilled {| r_data := response_data; r_error := None |}
      | Rejected apiError =>
          Fulfilled {| r_data := JNull; r_error := Some error |}
      end
  end.

Definition getRiskTrend (sb api : settled json) : settled reply :=
  match sb with
  | Fulfilled data => Fulfilled {| r_data := data; r_error := None |}
  | Rejected error =>
      match api with
      | Fulfilled response_data =>
          Fulfilled {| r_data := response_data; r_error := None |}
      | Rejected apiError =>
          Fulfilled {| r_data := JArray []; r_error := Some error |}
      end
  end.

Definition getClimateForecast (sb api : settled json) : settled reply :=
  match sb with
  | Fulfilled data => Fulfilled {| r_data := data; r_error := None |}
  | Rejected error =>
      match api with
      | Fulfilled response_data =>
          Fulfilled {| r_data := response_data; r_error := None |}
      | Rejected apiError =>
          Fulfilled {| r_data := JArray []; r_error := Some error |}
      end
  end.

Definition getActiveAlerts (sb : settled json) : settled reply :=
  match sb with
  | Fulfilled data => Fulfilled {| r_data := data; r_error := None |}
  | Rejected error => Fulfilled {| r_data := JArray []; r_error := Some error |}
  end.

Definition getRecommendations (sb api : settled json) : settled reply :=
  match sb with
  | Fulfilled data =>
      Fulfilled {| r_data := json_or data (JArray []); r_error := None |}
  | Rejected supabaseError =>
      match api with
      | Fulfilled response_data =>
          Fulfilled {| r_data := decodeRecommendations response_data;
                       r_error := None |}
      | Rejected apiError =>
          Fulfilled {| r_data := JArray []; r_error := Some apiError |}
      end
  end.

(** [getDashboardSummary], from what its five calls settle to.  The
    [catch] block receives the rejection [Promise.all] reports; with several
    the first in time, here the first in the list. *)
Definition getDashboardSummary
    (health risk forecast alerts recommendations : settled reply) : settled reply :=
  match health, risk, forecast, alerts, recommendations with
  | Fulfilled h, Fulfilled r, Fulfilled f, Fulfilled a, Fulfilled rc =>
      Fulfilled
        {| r_data := JObject [("health", r_data h);
                              ("risk", r_data r);
                              ("forecast", r_data f);
                              ("alerts", r_data a);
                              ("recommendations", r_data rc)];
           r_error := None |}
  | Rejected error, _, _, _, _
  | _, Rejected error, _, _, _
  | _, _, Rejected error, _, _
  | _, _, _, Rejected error, _
  | _, _, _, _, Rejected error =>
      Fulfilled {| r_data := JNull; r_error := Some error |}
  end.

(** What the nine requests behind the summary settle to. *)
Record sources := {
  sb_health : settled json;  api_health : settled json;
  sb_risk : settled json;  api_risk : settled json;
  sb_forecast : settled json;  api_forecast : settled json;
  sb_alerts : settled json;
  sb_recommendations : settled json;  api_recommendations : settled json;
}.

Definition dashboardSummary (s : sources) : settled reply :=
  getDashboardSummary
    (getLatestHealth (sb_health s) (api_health s))
    (getLatestRisk (sb_risk s) (api_risk s))
    (getClimateForecast (sb_forecast s) (api_forecast s))
    (getActiveAlerts (sb_alerts s))
    (getRecommendations (sb_recommendations s) (api_recommendations s)).

(** ** The components that call the service *)

(** [a ?? b] *)
Definition nullish_or (a b : json) : json :=
  match a with
  | JUndefined | JNull => b
  | _ => a
  end.

(** [v.k] without [?.]: reading a property of null or undefined throws
    ([None]). *)
Definition member (v : json) (k : string) : option json :=
  match v with
  | JUndefined | JNull => None
  | _ => Some (opt_member v k)
  end.

(** [data[0]] on an array *)
Definition first_item (items : list json) : json :=
  match items with
  | x :: _ => x
  | [] => JUndefined
  end.

(** [Object.keys(v)] throws for null and undefined. *)
Definition keys_throws (v : json) : bool :=
  match v with
  | JUndefined | JNull => true
  | _ => false
  end.

(** [normalizeRecommendations] of [RecommendationsList]; [None] when the
    logging of [Object.keys(recsArray[0])] throws. *)
Definition normalizeRecommendations (response : json) : option json :=
  let recs :=
    json_or (opt_member (opt_member response "data") "data")
   (json_or (opt_member (opt_member response "data") "recommendations")
   (json_or (opt_member response "data")
   (json_or (opt_member response "recommendations")
   (json_or response
            (JArray []))))) in
  let recsArray :=
    if isArray recs then recs
    else if json_truthy recs then JArray [recs] else JArray [] in
  match recsArray with
  | JArray (first :: _) => if keys_throws first then None else Some recsArray
  | _ => Some recsArray
  end.

(** [loadRecommendations] for a location, from what [getRecommendations]
    settles to: the array given to [setRecommendations], and whether
    [setError] receives an error message. *)
Definition loadRecommendations (response : settled reply) : json * bool :=
  match response with
  | Fulfilled r =>
      match normalizeRecommendations (reply_json r) with
      | Some recs => (recs, false)
      | None => (JArray [], true)
      end
  | Rejected _ => (JArray [], true)
  end.

(** [normalizeResponse] of [Dashboard]. *)
Definition normalizeResponse (res : json) : json :=
  if negb (json_truthy res) then JNull
  else
    let data :=
      nullish_or (opt_member (opt_member res "data") "data")
     (nullish_or (opt_member res "data") res) in
    match data with
    | JArray items => first_item items
    | _ => data
    end.

(** "Process Health" and "Process Risk" of [loadDashboardData] for a
    fulfilled call: the value given to [setHealth] or [setRisk], if the
    setter is called. *)
Definition processLatest (value : json) : option json :=
  if json_truthy value then
    let normalized := normalizeResponse value in
    if json_truthy normalized then Some normalized else None
  else None.

(** "Process Forecast": the value given to [setForecast], if it is
    called. *)
Definition processForecast (value : json) : option json :=
  if json_truthy value then
    let normalizedForecast := normalizeResponse value in
    Some (if negb (isArray normalizedForecast)
          then if json_truthy normalizedForecast
               then JArray [normalizedForecast] else JArray []
          else normalizedForecast)
  else None.

(** [loadRiskData] of [RiskChart]: the value given to [setRiskData]. *)
Definition loadRiskData (response : json) : json :=
  let data :=
    nullish_or (opt_member (opt_member response "data") "data")
   (nullish_or (opt_member response "data")
               (JArray [])) in
  if isArray data then data else JArray [].

(** [loadClimateData] of [ClimateChart]: the value given to [setData];
    [None] when [response.data.data] throws and the [catch] block only
    logs. *)
Definition loadClimateData (response : json) : option json :=
  match member response "data" with
  | Some d => member d "data"
  | None => None
  end.

(** ** An engine for closed examples *)

(** Reads a string of decimal digits, prints integers and the special
    values, and sorts by stable insertion, which is the prescribed order for
    a consistent comparator and, for the other arrays sorted in the examples
    below, the array V8 returns as well. *)
Fixpoint digits (acc : N) (s : string) : option N :=
  match s with
  | EmptyString => Some acc
  | String c s' =>
      let d := Ascii.N_of_ascii c in
      if ((48 <=? d) && (d <=? 57))%N
      then digits (acc * 10 + (d - 48))%N s'
      else None
  end.

#[local] Instance example_engine : Engine.
Proof.
  refine {|
    StringToNumber s :=
      match digits 0 s with
      | Some n => Fin (inject_Z (Z.of_N n))
      | None => NaN
      end;
    NumberToString n :=
      match n with
      | NaN => "NaN"
      | NegInf => "-Infinity"
      | PosInf => "Infinity"
      | Fin q => if (Qden q =? 1)%positive then pretty (Qnum q) else ""
      end;
    Array_sort A cmp l := sort_by cmp l;
  |}.
  - intros A cmp l. unfold sort_by.
    induction l as [|x l IH]; simpl; [done|].
    transitivity (x :: foldr (sort_insert cmp) [] l); [|by rewrite IH].
    generalize (foldr (sort_insert cmp) [] l). clear.
    intros l. induction l as [|y l IH]; simpl; [done|].
    destruct (0 <? cmp x y)%Z; [|done].
    rewrite IH. apply Permutation_swap.
  - reflexivity.
Defined.

(** ** Example data *)

Definition insert_of (r : record) : payload :=
  {| eventType := "INSERT"; new := Some r; old := None |}.

Definition update_of (r : record) : payload :=
  {| eventType := "UPDATE"; new := Some r; old := None |}.

Definition created_desc : orderBy :=
  {| column := Some "created_at"; ascending := Some false |}.

(** The scenario of the specification: one filter key, newest first, a
    single record kept. *)
Definition scenario_req : request :=
  {| viewName := "alerts";
     parsedFilter := [("location_id", VStr "L1")];
     parsedOrderBy := created_desc;
     stableLimit := Some 1%Z |}.

Definition rec_a : record :=
  <["id" := VStr "a"]> (<["created_at" := VStr "2025-01-01"]> ∅).

Definition rec_b : record :=
  <["id" := VStr "b"]> (<["created_at" := VStr "2025-01-02"]> ∅).

Definition rec_c : record :=
  <["id" := VStr "c"]> (<["created_at" := VStr "2025-01-03"]> ∅).




(** The filter of the realtime weather widget. *)
Definition weather_filter : list (string * value) :=
  [("location_id", VStr "L1"); ("is_forecast", VBool false)].

(** The same subscription with [limit: 0]. *)
Definition limit0_req : request :=
  {| viewName := "alerts";
     parsedFilter := [("location_id", VStr "L1")];
     parsedOrderBy := created_desc;
     stableLimit := Some 0%Z |}.

(** A response body in which [data] is an object and the recommendations
    sit under their own name. *)
Definition envelope_mixed : json :=
  JObject [("status", JString "success");
           ("data", JObject [("location_id", JString "L1")]);
           ("recommendations", JArray [JString "plant trees"])].

(** The subscription of the recommendations list: newest first, ten
    records. *)
Definition recs_req : request :=
  {| viewName := "recommendations";
     parsedFilter := [("location_id", VStr "L1")];
     parsedOrderBy := created_desc;
     stableLimit := Some 10%Z |}.

(** Records ordered by a numeric column that may be null or missing. *)
Definition scored (id : string) (score : value) : record :=
  <["id" := VStr id]> (<["score" := score]> ∅).

Definition unscored (id : string) : record := <["id" := VStr id]> ∅.

Definition num (z : Z) : value := VNum (Fin (inject_Z z)).

Definition score_desc_req : request :=
  {| viewName := "recommendations";
     parsedFilter := [];
     parsedOrderBy := {| column := Some "score"; ascending := Some false |};
     stableLimit := None |}.

(** A snapshot as the server orders it for [score] descending, nulls
    first. *)
Definition scores_snapshot : list record :=
  [scored "c" VNull; scored "a" (num 5); scored "b" (num 3)].

(** Forecast records as the view delivers them, and every request
    failing. *)
Definition day (d : string) : json := JObject [("timestamp", JString d)].

Definition all_failing : sources :=
  {| sb_health := Rejected "offline";  api_health := Rejected "timeout";
     sb_risk := Rejected "offline";  api_risk := Rejected "timeout";
     sb_forecast := Rejected "offline";  api_forecast := Rejected "timeout";
     sb_alerts := Rejected "offline";
     sb_recommendations := Rejected "offline";
     api_recommendations := Rejected "timeout" |}.

Definition delete_of (r : record) : payload :=
  {| eventType := "DELETE"; new := None; old := Some r |}.

(** A subscription without ordering and limit. *)
Definition plain_req : request :=
  {| viewName := "alerts";
     parsedFilter := [];
     parsedOrderBy := {| column := None; ascending := None |};
     stableLimit := None |}.

(** ** Notions used in the statements *)

Section Notions.
Context `{!Engine}.

(** No record of [l] is directly followed by one the re-sort's comparator
    puts before it; without an [orderBy] column every array qualifies. *)
Definition in_order (ob : orderBy) (l : list record) : Prop :=
  match order_column ob with
  | Some col => Sorted (λ a b, (comparator col (is_ascending ob) a b ≤ 0)%Z) l
  | None => True
  end.

(** The re-sort's comparator is a consistent comparator for the records
    of [l]. *)
Definition order_consistent (ob : orderBy) (l : list record) : Prop :=
  match order_column ob with
  | Some col => consistent (comparator col (is_ascending ob)) l
  | None => True
  end.

(** Every record of [l] holds a string in column [col], or every record
    holds a finite number there. *)
Definition timestamps (col : string) (l : list record) : Prop :=
  Forall (λ r, ∃ s, prop r col = VStr s) l
  ∨ Forall (λ r, ∃ q, prop r col = VNum (Fin q)) l.


(** The limit, if one is set, admits [k] records. *)
Definition room (req : request) (k : nat) : Prop :=
  match limit_set (stableLimit req) with
  | Some L => (Z.of_nat k ≤ L)%Z
  | None => True
  end.

End Notions.

(** The property names [transformData] may set. *)
Definition alias_names : list string :=
  ["created_at"; "updated_at"; "risk_score"; "factors"; "timestamp"; "temperature"].

(** An event none of the three branches of the updater takes. *)
Definition ignored (p : payload) : Prop :=
  (new p = None ∨ (eventType p ≠ "INSERT" ∧ eventType p ≠ "UPDATE"))
  ∧ (old p = None ∨ eventType p ≠ "DELETE").

Definition is_rejected {A} (x : settled A) : bool :=
  match x with Rejected _ => true | Fulfilled _ => false end.

Definition is_object (v : json) : bool :=
  match v with JObject _ => true | _ => false end.

(** The pending timers are exactly the one the [retryTimeout] ref holds,
    if it holds one. *)
Definition timer_inv (h : handle) : Prop :=
  timers h = match retryTimeout h with Some t => [t] | None => [] end.

(** * Properties *)

(** ** Arrays: [slice] and [sort] *)

Lemma length_slice0 {A} (l : list A) (n : Z) :
  (0 ≤ n)%Z → (Z.of_nat (length (slice0 l n)) ≤ n)%Z.
Proof.
  intros Hn. unfold slice0.
  destruct (Z.ltb_spec n 0) as [?|_]; [lia|].
  rewrite length_take. lia.
Qed.

Lemma length_slice0_le {A} (l : list A) (n : Z) :
  length (slice0 l n) ≤ length l.
Proof.
  unfold slice0. destruct (n <? 0)%Z; rewrite length_take; lia.
Qed.

Lemma slice0_one {A} (x : A) (l : list A) : slice0 (x :: l) 1 = [x].
Proof. reflexivity. Qed.

Section SortFacts.
Context {A : Type} (cmp : A → A → Z).

Lemma sort_insert_perm (x : A) (l : list A) : sort_insert cmp x l ≡ₚ x :: l.
Proof.
  induction l as [|y l IH]; simpl; [done|].
  destruct (0 <? cmp x y)%Z; [|done].
  rewrite IH. apply Permutation_swap.
Qed.

Lemma sort_by_perm (l : list A) : sort_by cmp l ≡ₚ l.
Proof.
  unfold sort_by. induction l as [|x l IH]; simpl; [done|].
  by rewrite sort_insert_perm, IH.
Qed.

Lemma length_sort_by (l : list A) : length (sort_by cmp l) = length l.
Proof. by rewrite (sort_by_perm l). Qed.

(** An array already in comparator order is returned as it is. *)
Lemma sort_by_in_order (l : list A) :
  Sorted (λ a b, (cmp a b ≤ 0)%Z) l → sort_by cmp l = l.
Proof.
  unfold sort_by. induction 1 as [|x l Hl IH Hhd]; simpl; [done|].
  rewrite IH. destruct Hhd as [|y l' Hxy]; simpl; [done|].
  destruct (Z.ltb_spec 0 (cmp x y)); [lia|done].
Qed.

End SortFacts.

(** ** The field mapping *)


Lemma transformRecord_unmapped (t : string) (r : record) :
  t ∉ ["land_health"; "degradation_risk"; "climate_data"] →
  transformRecord t r = r.
Proof.
  intros Ht. unfold transformRecord.
  repeat case_match; try done;
    match goal with
    | H : String.eqb _ _ = true |- _ => apply String.eqb_eq in H; subst t
    end; exfalso; apply Ht; set_solver.
Qed.

(** An inherited value is passed to [transformData] as the name it was
    found under, and like the value itself that name is none of the three
    mapped tables. *)
Lemma transformRecord_inherited (key : string) (r : record) :
  key ∈ prototype_names → transformRecord (Inherited key) r = r.
Proof.
  intros Hk. apply transformRecord_unmapped. simpl. intros Ht.
  unfold prototype_names in Hk.
  repeat (apply elem_of_cons in Hk as [->|Hk];
          [repeat (apply elem_of_cons in Ht as [Ht|Ht]; [discriminate Ht|]);
           by apply elem_of_nil in Ht|]).
  by apply elem_of_nil in Hk.
Qed.

Example actualTable_lookup :
  actualTable "health" = Named "land_health"
  ∧ actualTable "locations" = Named "locations"
  ∧ actualTable "constructor" = Inherited "constructor".
Proof. by vm_compute. Qed.

Lemma prop_insert (r : record) (k k' : string) (v : value) :
  prop (<[k := v]> r) k' = if decide (k = k') then v else prop r k'.
Proof. unfold prop. rewrite lookup_insert. by case_decide. Qed.

Lemma transformRecord_other (t : string) (r : record) (k : string) :
  k ∉ alias_names → transformRecord t r !! k = r !! k.
Proof.
  intros Hk. unfold transformRecord.
  repeat case_match; try done;
    rewrite ?lookup_insert_ne; try done;
    intros <-; apply Hk; unfold alias_names; set_solver.
Qed.

Lemma transformRecord_id (t : string) (r : record) :
  prop (transformRecord t r) "id" = prop r "id".
Proof.
  unfold prop. rewrite transformRecord_other; [done|].
  unfold alias_names. intros H.
  repeat (apply elem_of_cons in H as [H|H]; [discriminate H|]).
  by apply elem_of_nil in H.
Qed.



(** ** The snapshot query and the change-stream filter *)

Lemma q_eq_foldl (q : query) (l : list (string * value)) :
  q_eq (foldl q_add_eq q l) = q_eq q ++ l.
Proof.
  revert q. induction l as [|kv l IH]; intros q; simpl.
  - by rewrite app_nil_r.
  - rewrite IH. simpl. by rewrite <- app_assoc.
Qed.

Lemma snapshotQuery_eq (req : request) : q_eq (snapshotQuery req) = parsedFilter req.
Proof.
  unfold snapshotQuery.
  destruct (limit_set _), (order_column _); simpl; by rewrite q_eq_foldl.
Qed.

(** C8. The change-stream filter is the equality predicate of the first
    entry of the filter alone: whatever entries follow, it is
    [key=eq.value] of the first one; with no entry there is no filter.  The
    snapshot query carries every entry as an equality predicate. *)
Theorem filterString_first_pair `{!Engine} (req : request) :
  q_eq (snapshotQuery req) = parsedFilter req
  ∧ match parsedFilter req with
    | [] => ch_filter (channelOptions req) = None
    | (k, v) :: rest =>
        ch_filter (channelOptions req) = Some (k +:+ "=eq." +:+ ToString v)
        ∧ filterString ((k, v) :: rest) = filterString [(k, v)]
    end.
Proof.
  split; [apply snapshotQuery_eq|].
  unfold channelOptions; simpl.
  destruct (parsedFilter req) as [|[k v] rest]; [done|].
  unfold filterString; simpl. by rewrite String.eqb_refl.
Qed.

Example weather_filter_stream :
  filterString weather_filter = Some "location_id=eq.L1"
  ∧ q_eq (snapshotQuery
      {| viewName := "climate_data"; parsedFilter := weather_filter;
         parsedOrderBy := {| column := Some "date"; ascending := Some false |};
         stableLimit := Some 1%Z |}) = weather_filter.
Proof. by vm_compute. Qed.

(** ** The merge rule *)

Section MergeFacts.
Context `{!Engine}.

Lemma resort_perm (ob : orderBy) (l : list record) : resort ob l ≡ₚ l.
Proof. unfold resort. destruct (order_column ob); [apply Array_sort_perm|done]. Qed.

Lemma resort_singleton (ob : orderBy) (r : record) : resort ob [r] = [r].
Proof. apply Permutation_singleton_r. apply resort_perm. Qed.

Lemma length_resort (ob : orderBy) (l : list record) :
  length (resort ob l) = length l.
Proof. by rewrite (resort_perm ob l). Qed.

Lemma merge_insert limit kind n o prev :
  kind = "INSERT" →
  merge limit kind (Some n) o prev =
    match limit_set limit with
    | Some l => slice0 (n :: prev) l
    | None => n :: prev
    end.
Proof. by intros ->. Qed.

Lemma merge_update limit kind n o prev :
  kind = "UPDATE" →
  merge limit kind (Some n) o prev =
    (λ r, if strict_eq (prop r "id") (prop n "id") then n else r) <$> prev.
Proof. by intros ->. Qed.

Lemma merge_delete limit kind n o prev :
  kind = "DELETE" →
  merge limit kind n (Some o) prev =
    filter (λ r, negb (strict_eq (prop r "id") (prop o "id"))) prev.
Proof. intros ->. by destruct n. Qed.

(** Only the INSERT branch returns more records than it was given. *)
Lemma length_merge limit kind n o prev :
  length (merge limit kind n o prev) ≤
    (if String.eqb kind "INSERT" then S (length prev) else length prev).
Proof.
  unfold merge.
  destruct (String.eqb kind "INSERT") eqn:Hi.
  - destruct n as [n|].
    + destruct (limit_set limit);
        [etrans; [apply length_slice0_le|done]|done].
    + apply String.eqb_eq in Hi as ->. simpl.
      destruct o; simpl; lia.
  - destruct (String.eqb kind "UPDATE"), n;
      try by (rewrite length_fmap).
    all: destruct (String.eqb kind "DELETE"), o; try done.
    all: apply length_filter.
Qed.

Lemma length_merge_limit limit kind n o prev (L : Z) :
  limit = Some L → (0 < L)%Z →
  (Z.of_nat (length prev) ≤ L)%Z →
  (Z.of_nat (length (merge limit kind n o prev)) ≤ L)%Z.
Proof.
  intros -> HL Hprev.
  destruct (String.eqb kind "INSERT") eqn:Hi.
  - destruct n as [n|].
    + apply String.eqb_eq in Hi. rewrite merge_insert by done.
      unfold limit_set. destruct (Z.eqb_spec L 0); [lia|].
      apply length_slice0. lia.
    + pose proof (length_merge (Some L) kind None o prev) as Hle.
      rewrite Hi in Hle. apply String.eqb_eq in Hi. subst kind.
      unfold merge in *. simpl in *. destruct o; simpl in *; lia.
  - pose proof (length_merge (Some L) kind n o prev) as Hle.
    rewrite Hi in Hle. lia.
Qed.

End MergeFacts.

(** C10. An UPDATE leaves the number of records as it was, a DELETE does
    not raise it, and an event after which there are more records than
    before is an INSERT. *)
Theorem update_delete_never_grow `{!Engine} (req : request)
    (kind : string) (n o : option record) (prev : list record) :
  length (applyChange req {| eventType := "UPDATE"; new := n; old := o |} prev)
    = length prev
  ∧ length (applyChange req {| eventType := "DELETE"; new := n; old := o |} prev)
    ≤ length prev
  ∧ (kind = "INSERT"
     ∨ length (applyChange req {| eventType := kind; new := n; old := o |} prev)
       ≤ length prev).
Proof.
  unfold applyChange; simpl. rewrite !length_resort. split_and!.
  - destruct n as [n|]; simpl; [by rewrite merge_update, length_fmap|].
    by destruct o.
  - by etrans; [apply length_merge|].
  - destruct (String.eqb kind "INSERT") eqn:Hi.
    + left. by apply String.eqb_eq.
    + right. etrans; [apply length_merge|]. by rewrite Hi.
Qed.

(** C2, as stated, fails for [limit: 0]: the guard [if (stableLimit)] reads
    0 as no limit, and the inserted record stays. *)
Lemma insert_limit_zero_exceeds :
  stableLimit limit0_req = Some 0%Z
  ∧ ¬ (Z.of_nat (length (applyChange limit0_req (insert_of rec_b) [])) ≤ 0)%Z.
Proof. split; [done|]. vm_compute. by intros H. Qed.

(** C2, amended. With a limit [L] of at least 1: an INSERT carrying a
    record leaves at most [L] records whatever the RecordSet was; a
    RecordSet of at most [L] records stays so under every sequence of change
    events, INSERTs in particular; and with [L = 1] an INSERT leaves exactly
    the (field-mapped) new record. *)
Theorem insert_respects_limit `{!Engine} (req : request) (L : Z)
    (Hlimit : stableLimit req = Some L) (Hpos : (0 < L)%Z) :
  (∀ n o prev,
     (Z.of_nat (length (applyChange req
        {| eventType := "INSERT"; new := Some n; old := o |} prev)) ≤ L)%Z)
  ∧ (∀ ps prev,
     (Z.of_nat (length prev) ≤ L)%Z →
     (Z.of_nat (length (foldl (λ R p, applyChange req p R) prev ps)) ≤ L)%Z)
  ∧ (∀ n o prev,
     L = 1%Z →
     applyChange req {| eventType := "INSERT"; new := Some n; old := o |} prev
       = [transformRecord (actualTable (viewName req)) n]).
Proof.
  split_and!.
  - intros n o prev. unfold applyChange; simpl.
    rewrite length_resort, merge_insert, Hlimit by done.
    unfold limit_set. destruct (Z.eqb_spec L 0); [lia|].
    apply length_slice0. lia.
  - intros ps. induction ps as [|p ps IH]; intros prev Hprev; simpl; [done|].
    apply IH. unfold applyChange. rewrite length_resort.
    by eapply length_merge_limit.
  - intros n o prev ->. unfold applyChange; simpl.
    rewrite merge_insert, Hlimit by done. simpl. rewrite slice0_one.
    apply resort_singleton.
Qed.

Lemma insert_respects_limit_scenario :
  stableLimit scenario_req = Some 1%Z ∧ (0 < 1)%Z
  ∧ applyChange scenario_req (insert_of rec_b) [rec_a] = [rec_b].
Proof.
  split; [reflexivity|]. split; [reflexivity|].
  destruct (insert_respects_limit scenario_req 1 eq_refl eq_refl) as (_ & _ & H).
  exact (H rec_b None [rec_a] eq_refl).
Defined.

(** ** The response envelope *)

(** C4, as stated, fails: [data.data] is a truthy object here, so it is
    taken (and wrapped), although the later candidate [data.recommendations]
    is the first array. *)
Lemma decode_takes_object_before_array :
  List.find isArray (candidates envelope_mixed)
    = Some (JArray [JString "plant trees"])
  ∧ decodeRecommendations envelope_mixed
    = JArray [JObject [("location_id", JString "L1")]]
  ∧ decodeRecommendations envelope_mixed ≠ JArray [JString "plant trees"].
Proof. by vm_compute. Qed.

(** What the "ensure it's always an array" step makes of the selected
    value. *)
Lemma ensure_array_shape (c : json) :
  let r := if negb (isArray c)
           then if json_truthy c && typeof_object c then JArray [c] else JArray []
           else c in
  (∃ items, r = JArray items)
  ∧ match c with
    | JArray items => r = JArray items
    | JObject o => r = JArray [JObject o]
    | _ => r = JArray []
    end.
Proof.
  destruct c; simpl; rewrite ?andb_false_r; split; eauto.
Qed.

(** C4, amended. The decoder takes the first truthy candidate in the
    order [data.data.data], [data.data], [data.recommendations], [data]: an
    array is returned as it is, an object is wrapped in a one-element array,
    anything else (or no truthy candidate) gives the empty array; the result
    is an array in every case. *)
Theorem decode_first_truthy (d : json) :
  (∃ items, decodeRecommendations d = JArray items)
  ∧ match List.find json_truthy (candidates d) with
    | Some (JArray items) => decodeRecommendations d = JArray items
    | Some (JObject o) => decodeRecommendations d = JArray [JObject o]
    | _ => decodeRecommendations d = JArray []
    end.
Proof.
  unfold decodeRecommendations, candidates, json_or; simpl.
  destruct (json_truthy (opt_member (opt_member d "data") "data")) eqn:H1;
    [apply ensure_array_shape|].
  destruct (json_truthy (opt_member d "data")) eqn:H2;
    [apply ensure_array_shape|].
  destruct (json_truthy (opt_member d "recommendations")) eqn:H3;
    [apply ensure_array_shape|].
  destruct (json_truthy d) eqn:H4;
    [apply ensure_array_shape|].
  simpl. eauto.
Qed.

(** ** The comparator *)

Lemma ltb_compare (s t : string) :
  String.ltb s t = match String.compare s t with Lt => true | _ => false end.
Proof. reflexivity. Qed.

Lemma num_lt_compare (p q : Q) :
  num_lt (Fin p) (Fin q) = match (p ?= q)%Q with Lt => true | _ => false end.
Proof.
  simpl. unfold Qle_bool, Qcompare.
  rewrite Z.leb_compare, (Z.compare_antisym (Qnum p * QDen q)).
  by destruct (Qnum p * QDen q ?= Qnum q * QDen p)%Z.
Qed.

Lemma Qcompare_flip (p q : Q) : (q ?= p)%Q = CompOpp (p ?= q)%Q.
Proof. unfold Qcompare. apply Z.compare_antisym. Qed.

(** C3, as stated, fails: a missing (undefined) value compares as equal to
    5 instead of below it, and null sorts above -3. *)
Lemma comparator_null_not_lowest :
  ¬ (comparator "score" true (unscored "u") (scored "v" (num 5)) < 0)%Z
  ∧ ¬ (comparator "score" true (scored "n" VNull) (scored "m" (num (-3))) < 0)%Z.
Proof. split; vm_compute; by intros H. Qed.

(** C3, amended. The comparator applies [>] and [<] to the two column
    values as they are: [ascending = false] negates its sign; two strings
    compare lexicographically and two finite numbers numerically; an
    undefined value compares as equal to everything; null is compared as the
    number 0 against numbers and is equal to null. *)
Theorem comparator_by_value_type `{!Engine} (col : string) (a b : record) :
  comparator col false a b = (- comparator col true a b)%Z
  ∧ match prop a col, prop b col with
    | VStr s, VStr t => comparator col true a b = sign_of (String.compare s t)
    | VNum (Fin p), VNum (Fin q) => comparator col true a b = sign_of (p ?= q)%Q
    | VUndefined, _ | _, VUndefined => comparator col true a b = 0%Z
    | VNull, VNull => comparator col true a b = 0%Z
    | VNull, VNum (Fin q) => comparator col true a b = sign_of (0 ?= q)%Q
    | VNum (Fin p), VNull => comparator col true a b = sign_of (p ?= 0)%Q
    | _, _ => True
    end.
Proof.
  split; [done|].
  unfold comparator, greater.
  destruct (prop a col) as [| |x|[| |p|]|s], (prop b col) as [| |y|[| |q|]|t];
    try done; unfold less, ToNumber;
    rewrite ?num_lt_compare, ?ltb_compare; try done;
    try (simpl; by destruct (StringToNumber _));
    try (by destruct x); try (by destruct y);
    try match goal with
    | |- _ = sign_of (?u ?= ?v)%Q =>
        rewrite (Qcompare_flip u v); by destruct (u ?= v)%Q
    | |- _ = sign_of (String.compare ?u ?v) =>
        rewrite (String.compare_antisym v u); by destruct (String.compare u v)
    end.
Qed.

(** ** The order after the re-sort *)

Section SortedFacts.
Context {A : Type} (cmp : A → A → Z).
Hypothesis cmp_flip : ∀ x y, cmp y x = (- cmp x y)%Z.

Local Abbreviation before := (λ a b, (cmp a b ≤ 0)%Z).

Lemma HdRel_sort_insert (z x : A) (l : list A) :
  (cmp z x ≤ 0)%Z → HdRel before z l → HdRel before z (sort_insert cmp x l).
Proof.
  intros Hzx Hzl. destruct l as [|y l]; simpl; [by constructor|].
  destruct (0 <? cmp x y)%Z; constructor; [|done].
  by inversion Hzl.
Qed.

Lemma Sorted_sort_insert (x : A) (l : list A) :
  Sorted before l → Sorted before (sort_insert cmp x l).
Proof.
  induction 1 as [|y l Hl IH Hhd]; simpl; [by repeat constructor|].
  destruct (Z.ltb_spec 0 (cmp x y)) as [Hxy|Hxy].
  - constructor; [done|]. apply HdRel_sort_insert; [|done].
    rewrite cmp_flip. lia.
  - by repeat constructor.
Qed.

Lemma Sorted_sort_by (l : list A) : Sorted before (sort_by cmp l).
Proof.
  unfold sort_by. induction l as [|x l IH]; simpl; [constructor|].
  by apply Sorted_sort_insert.
Qed.

End SortedFacts.



Section ConsistentFacts.
Context {A K : Type} (key : A → K) (three : K → K → comparison).
Context (cmp : A → A → Z) (asc : bool).
Hypothesis three_flip : ∀ x y, three y x = CompOpp (three x y).
Hypothesis three_eq_trans : ∀ x y z, three x y = Eq → three y z = Eq → three x z = Eq.
Hypothesis three_lt_trans : ∀ x y z, three x y = Lt → three y z = Lt → three x z = Lt.

Lemma consistent_perm (l l' : list A) :
  l ≡ₚ l' → consistent cmp l → consistent cmp l'.
Proof. intros Hp Hc a b c Ha Hb Hc'. apply Hc; by rewrite Hp. Qed.

(** A comparator that is the sign, or the negated sign, of a three-way
    comparison of keys is consistent. *)
Lemma keyed_consistent (l : list A) :
  (∀ a b, a ∈ l → b ∈ l →
     cmp a b = (if asc then sign_of (three (key a) (key b))
                else - sign_of (three (key a) (key b)))%Z) →
  consistent cmp l.
Proof.
  intros Hcmp a b c Ha Hb Hc.
  assert (∀ k, three k k = Eq) as Hrefl.
  { intros k. specialize (three_flip k k). by destruct (three k k). }
  assert (match three (key a) (key b), three (key b) (key c) with
          | Eq, Eq => three (key a) (key c) = Eq
          | Lt, Lt => three (key a) (key c) = Lt
          | Gt, Gt => three (key a) (key c) = Gt
          | _, _ => True
          end) as Hac.
  { destruct (three (key a) (key b)) eqn:Hab, (three (key b) (key c)) eqn:Hbc;
      try done.
    - by apply (three_eq_trans _ (key b)).
    - by apply (three_lt_trans _ (key b)).
    - rewrite three_flip.
      rewrite (three_lt_trans (key c) (key b) (key a)); [done| |].
      + by rewrite three_flip, Hbc.
      + by rewrite three_flip, Hab. }
  rewrite !Hcmp by done. rewrite Hrefl, (three_flip (key a) (key b)).
  destruct (three (key a) (key b)), (three (key b) (key c));
    rewrite ?Hac; destruct asc; simpl; split_and!; intros; (lia || done).
Qed.

End ConsistentFacts.

Section OrderFacts.
Context `{!Engine}.

Lemma num_lt_asym (m n : number) : num_lt m n = true → num_lt n m = false.
Proof.
  destruct m as [| |p|], n as [| |q|]; try done.
  rewrite !num_lt_compare, (Qcompare_flip p q).
  by destruct (p ?= q)%Q.
Qed.

Lemma less_asym (a b : value) : less a b = true → less b a = false.
Proof.
  destruct a, b; try apply num_lt_asym.
  simpl. rewrite !ltb_compare, (String.compare_antisym s0 s).
  by destruct (String.compare s s0).
Qed.

Lemma comparator_flip col asc (a b : record) :
  comparator col asc b a = (- comparator col asc a b)%Z.
Proof.
  unfold comparator, greater.
  destruct (less (prop a col) (prop b col)) eqn:Hab.
  - rewrite (less_asym _ _ Hab). by destruct asc.
  - destruct (less (prop b col) (prop a col)); by destruct asc.
Qed.


Lemma not_less_trans_str (s t u : string) :
  String.ltb s t = false → String.ltb t u = false → String.ltb s u = false.
Proof.
  intros Hst Htu.
  assert (String.le t s) as Hts.
  { unfold String.le, String.leb. rewrite String.compare_antisym.
    rewrite ltb_compare in Hst. by destruct (String.compare s t). }
  assert (String.le u t) as Hut.
  { unfold String.le, String.leb. rewrite String.compare_antisym.
    rewrite ltb_compare in Htu. by destruct (String.compare t u). }
  assert (String.le u s) as Hus by (by etrans).
  unfold String.le, String.leb in Hus. rewrite String.compare_antisym in Hus.
  rewrite ltb_compare. by destruct (String.compare s u).
Qed.


(** *** Keys on which the comparator is consistent *)

Lemma compare_lt_trans (s t u : string) :
  String.compare s t = Lt → String.compare t u = Lt → String.compare s u = Lt.
Proof.
  intros Hst Htu.
  destruct (String.ltb s u) eqn:Hsu.
  - rewrite ltb_compare in Hsu. by destruct (String.compare s u).
  - assert (String.ltb u t = false) as Hut.
    { rewrite ltb_compare, (String.compare_antisym u t), Htu. done. }
    pose proof (not_less_trans_str s u t Hsu Hut) as Hno.
    rewrite ltb_compare, Hst in Hno. done.
Qed.

Lemma compare_eq_trans (s t u : string) :
  String.compare s t = Eq → String.compare t u = Eq → String.compare s u = Eq.
Proof. intros Hst Htu. by apply String.compare_eq_iff in Hst as ->. Qed.

Lemma Qcompare_lt_trans (p q r : Q) :
  (p ?= q)%Q = Lt → (q ?= r)%Q = Lt → (p ?= r)%Q = Lt.
Proof. rewrite <- !Qlt_alt. apply Qlt_trans. Qed.

Lemma Qcompare_eq_trans (p q r : Q) :
  (p ?= q)%Q = Eq → (q ?= r)%Q = Eq → (p ?= r)%Q = Eq.
Proof. rewrite <- !Qeq_alt. apply Qeq_trans. Qed.

Lemma comparator_strings col asc (a b : record) (s t : string) :
  prop a col = VStr s → prop b col = VStr t →
  comparator col asc a b
  = (if asc then sign_of (String.compare s t)
     else - sign_of (String.compare s t))%Z.
Proof.
  intros Ha Hb. unfold comparator, greater, less. rewrite Ha, Hb.
  rewrite !ltb_compare, (String.compare_antisym t s).
  by destruct (String.compare s t), asc.
Qed.

Lemma comparator_numbers col asc (a b : record) (p q : Q) :
  prop a col = VNum (Fin p) → prop b col = VNum (Fin q) →
  comparator col asc a b
  = (if asc then sign_of (p ?= q)%Q else - sign_of (p ?= q)%Q)%Z.
Proof.
  intros Ha Hb. unfold comparator, greater, less. rewrite Ha, Hb.
  unfold ToNumber. rewrite !num_lt_compare, (Qcompare_flip p q).
  by destruct (p ?= q)%Q, asc.
Qed.

Lemma timestamps_consistent col asc (l : list record) :
  timestamps col l → consistent (comparator col asc) l.
Proof.
  intros [Hstr|Hnum].
  - apply (keyed_consistent
             (λ r : record, match prop r col with VStr s => s | _ => "" end)
             String.compare _ asc).
    + intros x y. apply String.compare_antisym.
    + apply compare_eq_trans.
    + apply compare_lt_trans.
    + rewrite Forall_forall in Hstr. intros a b Ha Hb.
      destruct (Hstr a Ha) as [s Hs], (Hstr b Hb) as [t Ht].
      rewrite (comparator_strings col asc a b s t Hs Ht), Hs, Ht. done.
  - apply (keyed_consistent
             (λ r : record, match prop r col with VNum (Fin q) => q | _ => 0%Q end)
             Qcompare _ asc).
    + intros x y. apply Qcompare_flip.
    + apply Qcompare_eq_trans.
    + apply Qcompare_lt_trans.
    + rewrite Forall_forall in Hnum. intros a b Ha Hb.
      destruct (Hnum a Ha) as [p Hp], (Hnum b Hb) as [q Hq].
      rewrite (comparator_numbers col asc a b p q Hp Hq), Hp, Hq. done.
Qed.

Lemma order_consistent_perm (ob : orderBy) (l l' : list record) :
  l ≡ₚ l' → order_consistent ob l → order_consistent ob l'.
Proof.
  unfold order_consistent. destruct (order_column ob); [|done].
  apply consistent_perm.
Qed.

Lemma timestamps_order_consistent (ob : orderBy) col (l : list record) :
  order_column ob = Some col → timestamps col l → order_consistent ob l.
Proof.
  unfold order_consistent. intros ->. apply timestamps_consistent.
Qed.

(** For a consistent comparator the re-sort returns the stable sorted
    order: its result is in comparator order, and an array in comparator
    order is returned as it is. *)
Lemma resort_is_in_order (ob : orderBy) (l : list record) :
  order_consistent ob l → in_order ob (resort ob l).
Proof.
  unfold order_consistent, in_order, resort.
  destruct (order_column ob); [|done]. intros Hc.
  rewrite Array_sort_consistent by done.
  apply Sorted_sort_by. intros x y. apply comparator_flip.
Qed.

Lemma resort_in_order (ob : orderBy) (l : list record) :
  order_consistent ob l → in_order ob l → resort ob l = l.
Proof.
  unfold order_consistent, in_order, resort.
  destruct (order_column ob); [|done]. intros Hc Hord.
  rewrite Array_sort_consistent by done. by apply sort_by_in_order.
Qed.


End OrderFacts.

Section InsertFacts.
Context `{!Engine} (req : request).

Local Abbreviation tr := (transformRecord (actualTable (viewName req))).

Lemma room_le (k k' : nat) : k' ≤ k → room req k → room req k'.
Proof. unfold room. destruct (limit_set _); [lia|done]. Qed.

Lemma applyChange_insert_perm (r : record) (R : list record) :
  room req (S (length R)) →
  applyChange req (insert_of r) R ≡ₚ tr r :: R.
Proof.
  intros Hroom. unfold applyChange; simpl.
  rewrite resort_perm, merge_insert by done.
  unfold room in Hroom. destruct (limit_set _) as [L|]; [|done].
  unfold slice0. destruct (Z.ltb_spec L 0); [lia|].
  rewrite take_ge; [done|]. simpl. lia.
Qed.



End InsertFacts.





(** ** UPDATE *)

Section UpdateFacts.
Context `{!Engine}.

Lemma fmap_unmatched (n : record) (prev : list record) :
  Forall (λ r, strict_eq (prop r "id") (prop n "id") = false) prev →
  (λ r, if strict_eq (prop r "id") (prop n "id") then n else r) <$> prev = prev.
Proof.
  induction 1 as [|r prev Hr _ IH]; csimpl; [done|]. by rewrite Hr, IH.
Qed.

End UpdateFacts.

(** C9, as stated, fails when an [orderBy] column is set: the re-sort runs
    after every UPDATE, and here it moves the null score (compared as 0)
    behind 5 and 3 although no record has the id "z". *)
Lemma update_unmatched_reorders :
  Forall (λ r, strict_eq (prop r "id") (VStr "z") = false) scores_snapshot
  ∧ applyChange score_desc_req (update_of (scored "z" (num 1))) scores_snapshot
    = [scored "a" (num 5); scored "b" (num 3); scored "c" VNull]
  ∧ applyChange score_desc_req (update_of (scored "z" (num 1))) scores_snapshot
    ≠ scores_snapshot.
Proof.
  split; [by repeat constructor|].
  assert (applyChange score_desc_req (update_of (scored "z" (num 1))) scores_snapshot
          = [scored "a" (num 5); scored "b" (num 3); scored "c" VNull]) as E
    by (by vm_compute).
  split; [exact E|]. rewrite E. intros H.
  apply (f_equal (fmap (λ r : record, prop r "score"))) in H.
  vm_compute in H. discriminate H.
Qed.

(** C9, amended. An UPDATE replaces every record whose id equals the new
    record's id by the (field-mapped) new record and keeps the others, up to
    the re-sort: the result holds exactly these records, and it is exactly
    this array when no [orderBy] column is set, or when the comparator is a
    consistent order on its keys and the array is in comparator order.  When
    no id matches, these are the records of the RecordSet itself: nothing is
    inserted, and under the same conditions the RecordSet is returned
    unchanged. *)
Theorem update_replaces_matching_ids `{!Engine} (req : request)
    (n : record) (o : option record) (prev : list record) :
  let n' := transformRecord (actualTable (viewName req)) n in
  let replaced :=
    (λ r, if strict_eq (prop r "id") (prop n' "id") then n' else r) <$> prev in
  let after :=
    applyChange req {| eventType := "UPDATE"; new := Some n; old := o |} prev in
  after ≡ₚ replaced
  ∧ (order_consistent (parsedOrderBy req) replaced →
     in_order (parsedOrderBy req) replaced → after = replaced)
  ∧ (order_column (parsedOrderBy req) = None → after = replaced)
  ∧ (Forall (λ r, strict_eq (prop r "id") (prop n' "id") = false) prev →
     replaced = prev ∧ after ≡ₚ prev
     ∧ (order_consistent (parsedOrderBy req) prev →
        in_order (parsedOrderBy req) prev → after = prev)).
Proof.
  intros n' replaced after.
  assert (after = resort (parsedOrderBy req) replaced) as Hafter.
  { unfold after, applyChange; simpl. by rewrite merge_update. }
  split_and!.
  - rewrite Hafter. apply resort_perm.
  - intros Hc Hord. rewrite Hafter. by apply resort_in_order.
  - intros Hnone. rewrite Hafter. unfold resort. by rewrite Hnone.
  - intros Hnomatch.
    assert (replaced = prev) as Hrep by (by apply fmap_unmatched).
    split_and!; [done| |].
    + rewrite Hafter, Hrep. apply resort_perm.
    + intros Hc Hord. rewrite Hafter, Hrep. by apply resort_in_order.
Qed.

Lemma update_replaces_matching_ids_scenario :
  Forall (λ r, strict_eq (prop r "id") (prop rec_b "id") = false) [rec_c; rec_a]
  ∧ order_consistent (parsedOrderBy recs_req) [rec_c; rec_a]
  ∧ in_order (parsedOrderBy recs_req) [rec_c; rec_a]
  ∧ applyChange recs_req (update_of rec_b) [rec_c; rec_a] = [rec_c; rec_a].
Proof.
  assert (Forall (λ r, strict_eq (prop r "id") (prop rec_b "id") = false)
            [rec_c; rec_a]) as Hno by (repeat constructor).
  assert (order_consistent (parsedOrderBy recs_req) [rec_c; rec_a]) as Hc.
  { apply (timestamps_order_consistent _ "created_at"); [reflexivity|].
    left. repeat constructor; eexists; reflexivity. }
  assert (in_order (parsedOrderBy recs_req) [rec_c; rec_a]) as Hord.
  { repeat constructor. by vm_compute. }
  split; [exact Hno|]. split; [exact Hc|]. split; [exact Hord|].
  destruct (update_replaces_matching_ids recs_req rec_b None [rec_c; rec_a])
    as (_ & _ & _ & H).
  destruct (H Hno) as (_ & _ & H'). exact (H' Hc Hord).
Defined.

(** ** The handle: reconnect timer and late snapshot *)

Lemma without_self (t : positive) : without t [t] = [].
Proof. unfold without. rewrite filter_cons. by rewrite decide_False by naive_solver. Qed.

Section HandleFacts.
Context `{!Engine} (req : request).

Lemma onStatus_timer_inv (status : string) (h : handle) :
  timer_inv h → timer_inv (onStatus status h).
Proof.
  unfold timer_inv, onStatus. intros Hinv.
  destruct (String.eqb status "SUBSCRIBED"); simpl.
  { rewrite Hinv. destruct (retryTimeout h); [apply without_self|done]. }
  destruct (String.eqb status "CLOSED" || String.eqb status "CHANNEL_ERROR").
  { destruct (retryTimeout h) eqn:Hr; simpl; rewrite Hinv; by rewrite ?Hr. }
  by destruct (String.eqb status "TIMED_OUT").
Qed.

Lemma step_timer_inv (h : handle) (e : event) :
  timer_inv h → timer_inv (step req h e).
Proof.
  intros Hinv. destruct e as [| |res|ok|status|p|t]; simpl.
  - done.
  - unfold timer_inv, cleanup; simpl. rewrite Hinv.
    destruct (retryTimeout h); [apply without_self|done].
  - unfold snapshotSettles. destruct (fetching h); [done|].
    destruct res; [|done]. by destruct (channelRef h).
  - unfold removalSettles. destruct (removing h); [done|]. by destruct ok.
  - by apply onStatus_timer_inv.
  - done.
  - unfold timerFires. case_bool_decide as Ht; [|done].
    unfold timer_inv in *; simpl. rewrite Hinv in Ht |- *.
    destruct (retryTimeout h) as [t'|]; [|by apply elem_of_nil in Ht].
    apply list_elem_of_singleton in Ht as ->. apply without_self.
Qed.

Lemma run_timer_inv (es : list event) : timer_inv (run req es).
Proof.
  unfold run. induction es as [|e es IH] using rev_ind; [done|].
  rewrite foldl_snoc. by apply step_timer_inv.
Qed.

End HandleFacts.

(** C5. In every state the handle reaches at most one reconnect timer is
    pending.  A CLOSED or CHANNEL_ERROR status sets [connected] to false and
    leaves the pending timer as the only one if there is one (setting one
    timer otherwise); SUBSCRIBED sets [connected] to true and leaves no
    timer pending; TIMED_OUT sets [connected] to false and leaves timers and
    ref as they were. *)
Theorem single_retry_timer `{!Engine} (req : request) (es : list event) :
  let h := run req es in
  length (timers h) ≤ 1
  ∧ Forall (λ status,
      connected (onStatus status h) = false
      ∧ match retryTimeout h with
        | Some t =>
            timers (onStatus status h) = [t]
            ∧ retryTimeout (onStatus status h) = Some t
        | None =>
            timers (onStatus status h) = [fresh h]
            ∧ retryTimeout (onStatus status h) = Some (fresh h)
        end) ["CLOSED"; "CHANNEL_ERROR"]
  ∧ (connected (onStatus "SUBSCRIBED" h) = true
     ∧ timers (onStatus "SUBSCRIBED" h) = []
     ∧ retryTimeout (onStatus "SUBSCRIBED" h) = None)
  ∧ (connected (onStatus "TIMED_OUT" h) = false
     ∧ timers (onStatus "TIMED_OUT" h) = timers h
     ∧ retryTimeout (onStatus "TIMED_OUT" h) = retryTimeout h).
Proof.
  intros h. pose proof (run_timer_inv req es) as Hinv.
  fold h in Hinv. unfold timer_inv in Hinv.
  split_and!; try done.
  - rewrite Hinv. destruct (retryTimeout h); simpl; lia.
  - repeat apply Forall_cons_2; [..|apply Forall_nil_2];
      unfold onStatus; simpl;
      destruct (retryTimeout h) eqn:Hr; simpl; by rewrite Hinv.
  - unfold onStatus; simpl. rewrite Hinv.
    destruct (retryTimeout h); [apply without_self|done].
Qed.




(** * Further properties of the hook *)

(** ** The field mapping *)

Lemma or_else_absorb_l (a b : value) : or_else a (or_else a b) = or_else a b.
Proof. unfold or_else. by destruct (ToBoolean a) eqn:Ha; rewrite ?Ha. Qed.

Lemma or_else_absorb_r (a b : value) : or_else (or_else a b) b = or_else a b.
Proof.
  unfold or_else. destruct (ToBoolean a) eqn:Ha; rewrite ?Ha; [done|].
  by destruct (ToBoolean b).
Qed.

(** X1. The field mapping touches the six alias names only: every other
    property, [id] in particular, is handed on with its value, whatever the
    table. *)
Theorem transformData_keeps_other_properties (t : string) (r : record) (k : string) :
  (k ∈ alias_names ∨ transformRecord t r !! k = r !! k)
  ∧ prop (transformRecord t r) "id" = prop r "id".
Proof.
  split.
  - destruct (decide (k ∈ alias_names)); [by left|right].
    by apply transformRecord_other.
  - apply transformRecord_id.
Qed.

(** X2. Mapping a record that is already mapped changes nothing. *)
Theorem transformData_idempotent (t : string) (r : record) :
  transformRecord t (transformRecord t r) = transformRecord t r.
Proof.
  unfold transformRecord.
  destruct (String.eqb t "land_health"); [|
  destruct (String.eqb t "degradation_risk"); [|
  destruct (String.eqb t "climate_data"); [|done]]];
    apply map_eq; intros k;
    rewrite !prop_insert; simpl;
    rewrite ?or_else_absorb_l, ?or_else_absorb_r;
    rewrite !lookup_insert; repeat case_decide; done.
Qed.

(** ** DELETE, ignored events and the order of the RecordSet *)

Section MoreMergeFacts.
Context `{!Engine} (req : request).

Lemma merge_ignored (p : payload) (prev : list record) :
  ignored p →
  merge (stableLimit req) (eventType p)
    (transformData (actualTable (viewName req)) (new p))
    (transformData (actualTable (viewName req)) (old p)) prev = prev.
Proof.
  intros [Hnew Hold]. unfold merge.
  destruct (String.eqb_spec (eventType p) "INSERT") as [Hi|Hi],
           (String.eqb_spec (eventType p) "UPDATE") as [Hu|Hu],
           (String.eqb_spec (eventType p) "DELETE") as [Hd|Hd],
           (new p) as [n|], (old p) as [o|]; simpl; try done;
    destruct Hnew as [?|[??]], Hold as [?|?]; done.
Qed.

Lemma filter_unmatched (o : record) (prev : list record) :
  Forall (λ r, strict_eq (prop r "id") (prop o "id") = false) prev →
  filter (λ r, negb (strict_eq (prop r "id") (prop o "id"))) prev = prev.
Proof.
  induction 1 as [|r prev Hr _ IH]; [done|].
  rewrite filter_cons, IH. rewrite decide_True; [done|]. by rewrite Hr.
Qed.

End MoreMergeFacts.

(** X3. A DELETE removes every record whose id equals the old record's id
    and keeps the others: the result holds exactly the remaining records
    and none with that id, in their positions once the comparator is a
    consistent order on their keys and they are in comparator order.  When
    no id matches, the records are those of the RecordSet. *)
Theorem delete_removes_matching_ids `{!Engine} (req : request)
    (n : option record) (o : record) (prev : list record) :
  let kept := filter (λ r, negb (strict_eq (prop r "id") (prop o "id"))) prev in
  let after :=
    applyChange req {| eventType := "DELETE"; new := n; old := Some o |} prev in
  after ≡ₚ kept
  ∧ Forall (λ r, strict_eq (prop r "id") (prop o "id") = false) after
  ∧ (order_consistent (parsedOrderBy req) kept →
     in_order (parsedOrderBy req) kept → after = kept)
  ∧ (order_column (parsedOrderBy req) = None → after = kept)
  ∧ (Forall (λ r, strict_eq (prop r "id") (prop o "id") = false) prev →
     kept = prev).
Proof.
  intros kept after.
  assert (after = resort (parsedOrderBy req) kept) as Hafter.
  { unfold after, kept, applyChange; simpl. rewrite merge_delete by done.
    by rewrite transformRecord_id. }
  assert (after ≡ₚ kept) as Hperm by (rewrite Hafter; apply resort_perm).
  split_and!; [done| | | |].
  - rewrite Hperm. unfold kept. apply Forall_forall. intros r Hr.
    apply list_elem_of_filter in Hr as [Hr _].
    by destruct (strict_eq (prop r "id") (prop o "id")).
  - intros Hc Hord. rewrite Hafter. by apply resort_in_order.
  - intros Hnone. rewrite Hafter. unfold resort. by rewrite Hnone.
  - apply filter_unmatched.
Qed.

Lemma delete_removes_matching_ids_example :
  order_consistent (parsedOrderBy recs_req) [rec_c; rec_a]
  ∧ in_order (parsedOrderBy recs_req) [rec_c; rec_a]
  ∧ applyChange recs_req
      {| eventType := "DELETE"; new := None; old := Some rec_b |}
      [rec_c; rec_b; rec_a]
    = [rec_c; rec_a].
Proof.
  assert (order_consistent (parsedOrderBy recs_req) [rec_c; rec_a]) as Hc.
  { apply (timestamps_order_consistent _ "created_at"); [reflexivity|].
    left. repeat constructor; eexists; reflexivity. }
  assert (in_order (parsedOrderBy recs_req) [rec_c; rec_a]) as Hord.
  { repeat constructor. by vm_compute. }
  split; [exact Hc|]. split; [exact Hord|].
  destruct (delete_removes_matching_ids recs_req None rec_b [rec_c; rec_b; rec_a])
    as (_ & _ & H & _).
  exact (H Hc Hord).
Defined.

(** X4. When the comparator is a consistent order on the keys an event
    leaves behind (all strings, say, or all finite numbers), the RecordSet
    it leaves is in comparator order, and an event none of the three
    branches takes (unknown type, INSERT or UPDATE without a new record,
    DELETE without an old one) then returns that RecordSet unchanged; such
    an event always keeps the records. *)
Theorem applyChange_leaves_order `{!Engine} (req : request)
    (p q : payload) (prev : list record) (Hq : ignored q)
    (Hkeys : order_consistent (parsedOrderBy req) (applyChange req p prev)) :
  in_order (parsedOrderBy req) (applyChange req p prev)
  ∧ applyChange req q prev ≡ₚ prev
  ∧ applyChange req q (applyChange req p prev) = applyChange req p prev.
Proof.
  assert (∀ l, applyChange req q l = resort (parsedOrderBy req) l) as Hign.
  { intros l. unfold applyChange. by rewrite merge_ignored. }
  assert (in_order (parsedOrderBy req) (applyChange req p prev)) as Hord.
  { unfold applyChange in *. apply resort_is_in_order.
    eapply order_consistent_perm; [|exact Hkeys]. apply resort_perm. }
  split_and!; [done| |].
  - rewrite Hign. apply resort_perm.
  - rewrite Hign. by apply resort_in_order.
Qed.

Lemma applyChange_leaves_order_example :
  ignored {| eventType := "TRUNCATE"; new := Some rec_a; old := Some rec_b |}
  ∧ order_consistent (parsedOrderBy recs_req)
      (applyChange recs_req (insert_of rec_b) [rec_a])
  ∧ applyChange recs_req
      {| eventType := "TRUNCATE"; new := Some rec_a; old := Some rec_b |}
      (applyChange recs_req (insert_of rec_b) [rec_a])
    = applyChange recs_req (insert_of rec_b) [rec_a].
Proof.
  assert (ignored {| eventType := "TRUNCATE"; new := Some rec_a; old := Some rec_b |})
    as Hq by (split; right; [split|]; discriminate).
  assert (order_consistent (parsedOrderBy recs_req)
            (applyChange recs_req (insert_of rec_b) [rec_a])) as Hkeys.
  { apply (timestamps_order_consistent _ "created_at"); [reflexivity|].
    left. repeat constructor; eexists; reflexivity. }
  split; [exact Hq|]. split; [exact Hkeys|].
  destruct (applyChange_leaves_order recs_req (insert_of rec_b)
              {| eventType := "TRUNCATE"; new := Some rec_a; old := Some rec_b |}
              [rec_a] Hq Hkeys) as (_ & _ & H).
  exact H.
Defined.

(** X5. With no limit, or a limit of at least 1, an INSERT always keeps the
    new record, never replaces a record of the same id, and what the limit
    cuts off is the tail of the previous RecordSet, whatever the new
    record's sort key: the result holds the new record and the first
    [limit - 1] previous records. *)
Theorem insert_keeps_new_record `{!Engine} (req : request)
    (n : record) (o : option record) (prev : list record)
    (Hlimit : ∀ L, limit_set (stableLimit req) = Some L → (0 < L)%Z) :
  let n' := transformRecord (actualTable (viewName req)) n in
  let after :=
    applyChange req {| eventType := "INSERT"; new := Some n; old := o |} prev in
  after ≡ₚ n' :: match limit_set (stableLimit req) with
                 | Some L => take (Z.to_nat (L - 1)) prev
                 | None => prev
                 end
  ∧ n' ∈ after.
Proof.
  intros n' after.
  assert (after ≡ₚ n' :: match limit_set (stableLimit req) with
                         | Some L => take (Z.to_nat (L - 1)) prev
                         | None => prev
                         end) as Hperm.
  { unfold after, applyChange; simpl.
    rewrite resort_perm, merge_insert by done.
    destruct (limit_set (stableLimit req)) as [L|] eqn:HL; [|done].
    specialize (Hlimit L eq_refl). unfold slice0.
    destruct (Z.ltb_spec L 0); [lia|].
    replace (Z.to_nat L) with (S (Z.to_nat (L - 1))) by lia. done. }
  split; [done|]. rewrite Hperm. by left.
Qed.

Lemma insert_keeps_new_record_example :
  (∀ L, limit_set (stableLimit scenario_req) = Some L → (0 < L)%Z)
  ∧ rec_a ∈ applyChange scenario_req (insert_of rec_a) [rec_b].
Proof.
  assert (∀ L, limit_set (stableLimit scenario_req) = Some L → (0 < L)%Z) as HL.
  { intros L [= <-]. reflexivity. }
  split; [exact HL|].
  destruct (insert_keeps_new_record scenario_req rec_a None [rec_b] HL) as [_ H].
  exact H.
Defined.

(** ** Events delivered twice, and undone *)

Section RepeatFacts.
Context `{!Engine} (req : request).

Lemma fmap_fixed {A} (f : A → A) (l : list A) :
  Forall (λ x, f x = x) l → f <$> l = l.
Proof. induction 1 as [|x l Hx _ IH]; csimpl; [done|]. by rewrite Hx, IH. Qed.

Lemma filter_all {A} (P : A → Prop) `{∀ x, Decision (P x)} (l : list A) :
  Forall P l → filter P l = l.
Proof.
  induction 1 as [|x l Hx _ IH]; [done|].
  by rewrite filter_cons, decide_True, IH.
Qed.

Lemma replace_twice (n r : record) :
  let f := λ r : record, if strict_eq (prop r "id") (prop n "id") then n else r in
  f (f r) = f r.
Proof.
  simpl. destruct (strict_eq (prop r "id") (prop n "id")) eqn:Hr;
    [|by rewrite Hr]. by destruct (strict_eq (prop n "id") (prop n "id")).
Qed.

End RepeatFacts.

(** X6. When the comparator is a consistent order on the keys the first
    delivery leaves behind, an UPDATE or a DELETE delivered twice has the
    effect of one: the second delivery returns the RecordSet the first one
    left.  An INSERT delivered twice is stored twice when the limit admits
    it: the result holds the new record two times beside the previous
    records. *)
Theorem repeated_event_is_absorbed `{!Engine} (req : request)
    (n o : record) (n1 o1 : option record) (prev : list record) :
  let upd := {| eventType := "UPDATE"; new := Some n; old := o1 |} in
  let del := {| eventType := "DELETE"; new := n1; old := Some o |} in
  let n' := transformRecord (actualTable (viewName req)) n in
  (order_consistent (parsedOrderBy req) (applyChange req upd prev) →
   applyChange req upd (applyChange req upd prev) = applyChange req upd prev)
  ∧ (order_consistent (parsedOrderBy req) (applyChange req del prev) →
     applyChange req del (applyChange req del prev) = applyChange req del prev)
  ∧ (room req (S (S (length prev))) →
     applyChange req (insert_of n) (applyChange req (insert_of n) prev)
     ≡ₚ n' :: n' :: prev).
Proof.
  intros upd del n'.
  assert (∀ p l, order_consistent (parsedOrderBy req) (applyChange req p l) →
                 in_order (parsedOrderBy req) (applyChange req p l)) as Hord.
  { intros p l Hc. unfold applyChange in *. apply resort_is_in_order.
    eapply order_consistent_perm; [|exact Hc]. apply resort_perm. }
  split_and!.
  - intros Hc. set (after := applyChange req upd prev) in *.
    unfold applyChange at 1; simpl. rewrite merge_update by done.
    rewrite fmap_fixed.
    + apply resort_in_order; [done|]. by apply Hord.
    + assert (after ≡ₚ (λ r : record,
                if strict_eq (prop r "id") (prop n' "id") then n' else r)
              <$> prev) as ->.
      { unfold after, applyChange; simpl. rewrite merge_update by done.
        apply resort_perm. }
      apply Forall_fmap, Forall_forall. intros r _. apply replace_twice.
  - intros Hc. set (after := applyChange req del prev) in *.
    unfold applyChange at 1; simpl. rewrite merge_delete by done.
    rewrite filter_all.
    + apply resort_in_order; [done|]. by apply Hord.
    + assert (after ≡ₚ filter (λ r : record,
                negb (strict_eq (prop r "id")
                  (prop (transformRecord (actualTable (viewName req)) o) "id")))
              prev) as ->.
      { unfold after, applyChange; simpl. rewrite merge_delete by done.
        apply resort_perm. }
      apply Forall_forall. intros r Hr.
      by apply list_elem_of_filter in Hr as [Hr _].
  - intros Hroom.
    assert (applyChange req (insert_of n) prev ≡ₚ n' :: prev) as H1.
    { apply applyChange_insert_perm. eapply room_le; [|done]. lia. }
    rewrite applyChange_insert_perm; rewrite H1; simpl; [done|done].
Qed.

Lemma repeated_event_is_absorbed_example :
  order_consistent (parsedOrderBy recs_req)
    (applyChange recs_req (update_of rec_b) [rec_c; rec_b; rec_a])
  ∧ applyChange recs_req (update_of rec_b)
      (applyChange recs_req (update_of rec_b) [rec_c; rec_b; rec_a])
    = applyChange recs_req (update_of rec_b) [rec_c; rec_b; rec_a].
Proof.
  assert (order_consistent (parsedOrderBy recs_req)
            (applyChange recs_req (update_of rec_b) [rec_c; rec_b; rec_a]))
    as Hkeys.
  { apply (timestamps_order_consistent _ "created_at"); [reflexivity|].
    left. repeat constructor; eexists; reflexivity. }
  split; [exact Hkeys|].
  destruct (repeated_event_is_absorbed recs_req rec_b rec_b None None
              [rec_c; rec_b; rec_a]) as (H & _ & _).
  exact (H Hkeys).
Defined.

(** X7. A DELETE undoes an INSERT: when the limit admits one more record
    and no record of the RecordSet has the deleted id, inserting a record
    and then deleting by its id leaves the records that were there, in
    their positions when no [orderBy] column is set.  The id must equal
    itself under [===]. *)
Theorem insert_then_delete_restores `{!Engine} (req : request)
    (n o : record) (prev : list record)
    (Hroom : room req (S (length prev)))
    (Hid : strict_eq (prop n "id") (prop o "id") = true)
    (Hfresh : Forall (λ r, strict_eq (prop r "id") (prop o "id") = false) prev) :
  let after := applyChange req (delete_of o) (applyChange req (insert_of n) prev) in
  after ≡ₚ prev
  ∧ (order_column (parsedOrderBy req) = None → after = prev).
Proof.
  intros after.
  pose proof (transformRecord_id (actualTable (viewName req)) o) as Ho.
  pose proof (transformRecord_id (actualTable (viewName req)) n) as Hn.
  assert (filter (λ r : record, negb (strict_eq (prop r "id") (prop o "id")))
            (transformRecord (actualTable (viewName req)) n :: prev) = prev)
    as Hfilter.
  { rewrite filter_cons, decide_False by (rewrite Hn, Hid; naive_solver).
    by apply filter_unmatched. }
  split.
  - unfold after, applyChange at 1; simpl.
    rewrite resort_perm, merge_delete, Ho by done.
    rewrite applyChange_insert_perm by done. by rewrite Hfilter.
  - intros Hnone. unfold after, applyChange, resort; simpl.
    rewrite Hnone, merge_delete, Ho, merge_insert by done.
    unfold room in Hroom.
    destruct (limit_set (stableLimit req)) as [L|]; [|done].
    unfold slice0. destruct (Z.ltb_spec L 0); [lia|].
    rewrite take_ge by (simpl; lia). done.
Qed.

Lemma insert_then_delete_restores_example :
  room plain_req (S (length [rec_a; rec_c]))
  ∧ applyChange plain_req (delete_of rec_b)
      (applyChange plain_req (insert_of rec_b) [rec_a; rec_c])
    = [rec_a; rec_c].
Proof.
  assert (room plain_req (S (length [rec_a; rec_c]))) as Hroom by exact I.
  split; [exact Hroom|].
  destruct (insert_then_delete_restores plain_req rec_b rec_b [rec_a; rec_c]
              Hroom eq_refl) as [_ H].
  - repeat constructor.
  - exact (H eq_refl).
Defined.

(** ** The handle over its life *)

Section MoreHandleFacts.
Context `{!Engine} (req : request).

Lemma onStatus_loading (status : string) (h : handle) :
  loading (onStatus status h) = loading h.
Proof.
  unfold onStatus. repeat case_match; done.
Qed.

Lemma step_loading (h : handle) (e : event) :
  loading h = false → loading (step req h e) = false.
Proof.
  intros Hl. destruct e as [| |res|ok|status|p|t]; simpl; try done.
  - unfold snapshotSettles. destruct (fetching h); [done|].
    destruct res; [|done]. by destruct (channelRef h).
  - unfold removalSettles. destruct (removing h); [done|]. by destruct ok.
  - by rewrite onStatus_loading.
  - unfold timerFires. by case_bool_decide.
Qed.

Lemma cleanup_quiet (h : handle) :
  timer_inv h →
  timers (cleanup h) = [] ∧ retryTimeout (cleanup h) = None
  ∧ channelRef (cleanup h) = None.
Proof.
  unfold timer_inv, cleanup; simpl. intros ->.
  split_and!; try done. destruct (retryTimeout h); [apply without_self|done].
Qed.

Lemma cleanup_again (h : handle) : cleanup (cleanup h) = cleanup h.
Proof. reflexivity. Qed.

End MoreHandleFacts.

(** X8. [loading] never goes back to true: once a snapshot has settled (or
    setup has failed), no later event, a reconnect or a new activation
    included, shows the loading state again. *)
Theorem loading_never_returns `{!Engine} (req : request)
    (h : handle) (es : list event) (Hloaded : loading h = false) :
  loading (foldl (step req) h es) = false.
Proof.
  revert h Hloaded. induction es as [|e es IH]; intros h Hl; simpl; [done|].
  apply IH. by apply step_loading.
Qed.

Lemma loading_never_returns_example :
  loading (run scenario_req [Activate; SnapshotSettles (Ok None)]) = false
  ∧ loading (foldl (step scenario_req)
               (run scenario_req [Activate; SnapshotSettles (Ok None)])
               [Status "CLOSED"; TimerFires 2; Deactivate; Activate]) = false.
Proof.
  assert (loading (run scenario_req [Activate; SnapshotSettles (Ok None)]) = false)
    as H by reflexivity.
  split; [exact H|].
  exact (loading_never_returns scenario_req _
           [Status "CLOSED"; TimerFires 2; Deactivate; Activate] H).
Defined.

(** X9. A status report changes neither the records nor [loading], and
    removes or opens no channel: while the connection is down the data stay
    as they were and the channel that reported the failure stays
    registered.  A status other than the four handled ones changes
    nothing. *)
Theorem status_keeps_data `{!Engine} (status : string) (h : handle) :
  data (onStatus status h) = data h
  ∧ loading (onStatus status h) = loading h
  ∧ channels (onStatus status h) = channels h
  ∧ channelRef (onStatus status h) = channelRef h
  ∧ (status ∈ ["SUBSCRIBED"; "CLOSED"; "CHANNEL_ERROR"; "TIMED_OUT"]
     ∨ onStatus status h = h).
Proof.
  unfold onStatus.
  destruct (String.eqb_spec status "SUBSCRIBED") as [->|?];
    [split_and!; try done; left; set_solver|].
  destruct (String.eqb_spec status "CLOSED") as [->|?]; simpl;
    [destruct (retryTimeout h); split_and!; try done; left; set_solver|].
  destruct (String.eqb_spec status "CHANNEL_ERROR") as [->|?]; simpl;
    [destruct (retryTimeout h); split_and!; try done; left; set_solver|].
  destruct (String.eqb_spec status "TIMED_OUT") as [->|?]; simpl;
    [split_and!; try done; left; set_solver|].
  split_and!; try done. by right.
Qed.

(** X10. In every state the handle reaches, deactivation leaves no timer
    pending and no channel referenced; a timer firing afterwards finds
    nothing to do, and deactivating again changes nothing. *)
Theorem deactivate_is_final `{!Engine} (req : request) (es : list event)
    (t : positive) :
  let h := step req (run req es) Deactivate in
  timers h = []
  ∧ retryTimeout h = None
  ∧ channelRef h = None
  ∧ step req h (TimerFires t) = h
  ∧ step req h Deactivate = h.
Proof.
  intros h.
  destruct (cleanup_quiet (run req es) (run_timer_inv req es))
    as (Ht & Hr & Hc).
  fold (step req (run req es) Deactivate) in Ht, Hr, Hc. fold h in Ht, Hr, Hc.
  split_and!; [done..| |].
  - simpl. unfold timerFires. rewrite Ht.
    rewrite bool_decide_eq_false_2; [done|]. apply not_elem_of_nil.
  - apply cleanup_again.
Qed.

(** X11. Nothing marks a handle as deactivated: a CLOSED (or CHANNEL_ERROR)
    status that arrives after deactivation sets a reconnect timer, and when
    that timer fires [setup] runs again and issues a new snapshot query. *)
Theorem status_after_deactivate_restarts `{!Engine} (req : request)
    (es : list event) :
  let h := step req (run req es) Deactivate in
  Forall (λ status,
      let h1 := step req h (Status status) in
      let h2 := step req h1 (TimerFires (fresh h)) in
      retryTimeout h1 = Some (fresh h)
      ∧ timers h1 = [fresh h]
      ∧ fetching h2 = S (fetching h)
      ∧ timers h2 = [])
    ["CLOSED"; "CHANNEL_ERROR"].
Proof.
  intros h.
  destruct (cleanup_quiet (run req es) (run_timer_inv req es))
    as (Ht & Hr & _).
  fold (step req (run req es) Deactivate) in Ht, Hr. fold h in Ht, Hr.
  clearbody h.
  repeat apply Forall_cons_2; [..|apply Forall_nil_2];
    simpl; unfold onStatus; simpl; rewrite Hr; simpl;
    unfold timerFires; simpl; rewrite Ht;
    (rewrite bool_decide_eq_true_2; [|by left]); simpl;
    by rewrite without_self.
Qed.

(** X12. Two [setup] calls that overlap while a channel is referenced each
    remove that channel and each open a new one; only the second new channel
    ends up in [channelRef], so the first stays open and a later
    deactivation does not remove it. *)
Theorem overlapping_setups_leak_channel `{!Engine} (req : request)
    (h : handle) (c : positive) (i1 i2 : option (list record))
    (Href : channelRef h = Some c) (Hflight : 2 ≤ fetching h) :
  let h' := foldl (step req) h
              [SnapshotSettles (Ok i1); SnapshotSettles (Ok i2);
               RemovalSettles true; RemovalSettles true] in
  channelRef h' = Some (Pos.succ (fresh h))
  ∧ channels h'
    = Pos.succ (fresh h) :: fresh h :: without c (without c (channels h))
  ∧ fresh h ∈ channels (step req h' Deactivate).
Proof.
  simpl. unfold snapshotSettles.
  destruct (fetching h) as [|[|k]]; [lia..|]. rewrite Href. simpl.
  unfold removalSettles; simpl.
  split_and!; [done..|].
  unfold without at 1. rewrite filter_cons, decide_False by naive_solver.
  rewrite filter_cons, decide_True by lia. by left.
Qed.

Lemma overlapping_setups_leak_channel_example :
  channelRef (run scenario_req
     [Activate; SnapshotSettles (Ok None); Status "CLOSED"; TimerFires 2;
      Status "CLOSED"; TimerFires 3]) = Some 1%positive
  ∧ 2 ≤ fetching (run scenario_req
     [Activate; SnapshotSettles (Ok None); Status "CLOSED"; TimerFires 2;
      Status "CLOSED"; TimerFires 3])
  ∧ channels (foldl (step scenario_req)
      (run scenario_req
         [Activate; SnapshotSettles (Ok None); Status "CLOSED"; TimerFires 2;
          Status "CLOSED"; TimerFires 3])
      [SnapshotSettles (Ok None); SnapshotSettles (Ok None);
       RemovalSettles true; RemovalSettles true])
    = [5%positive; 4%positive].
Proof.
  assert (channelRef (run scenario_req
     [Activate; SnapshotSettles (Ok None); Status "CLOSED"; TimerFires 2;
      Status "CLOSED"; TimerFires 3]) = Some 1%positive) as Href by reflexivity.
  assert (2 ≤ fetching (run scenario_req
     [Activate; SnapshotSettles (Ok None); Status "CLOSED"; TimerFires 2;
      Status "CLOSED"; TimerFires 3])) as Hflight by (vm_compute; lia).
  split; [exact Href|]. split; [exact Hflight|].
  destruct (overlapping_setups_leak_channel scenario_req _ 1 None None
              Href Hflight) as (_ & H & _).
  exact H.
Defined.

(** X13. A snapshot that fails clears [loading] and [connected] and does
    nothing else: the records stay, no channel is opened or removed, and no
    retry is scheduled. *)
Theorem failed_snapshot_is_not_retried `{!Engine} (req : request)
    (h : handle) (Hflight : 0 < fetching h) :
  let h' := step req h (SnapshotSettles Failed) in
  loading h' = false ∧ connected h' = false
  ∧ data h' = data h
  ∧ channels h' = channels h ∧ channelRef h' = channelRef h
  ∧ timers h' = timers h ∧ retryTimeout h' = retryTimeout h
  ∧ S (fetching h') = fetching h.
Proof.
  simpl. unfold snapshotSettles.
  destruct (fetching h) as [|k]; [lia|]. by simpl.
Qed.

Lemma failed_snapshot_is_not_retried_example :
  0 < fetching (run scenario_req [Activate])
  ∧ timers (step scenario_req (run scenario_req [Activate])
              (SnapshotSettles Failed)) = []
  ∧ loading (step scenario_req (run scenario_req [Activate])
               (SnapshotSettles Failed)) = false.
Proof.
  assert (0 < fetching (run scenario_req [Activate])) as Hflight by (cbn; lia).
  split; [exact Hflight|].
  destruct (failed_snapshot_is_not_retried scenario_req
              (run scenario_req [Activate]) Hflight)
    as (Hl & _ & _ & _ & _ & Ht & _).
  split; [exact Ht|exact Hl].
Defined.

(** * Properties of the API service and its callers *)

Lemma decode_is_array (d : json) :
  ∃ items, decodeRecommendations d = JArray items.
Proof.
  unfold decodeRecommendations, json_or.
  repeat match goal with
  | |- context [if json_truthy ?c then _ else _] => destruct (json_truthy c)
  end; apply ensure_array_shape.
Qed.

(** X14. [getRecommendations] never rejects, and when Supabase answers with
    an array or with null its [data] is always an array (null becomes the
    empty array); an error is reported only when Supabase and the FastAPI
    fallback both fail, and then it is the FastAPI error. *)
Theorem getRecommendations_always_array (sb api : settled json)
    (Hsb : ∀ data, sb = Fulfilled data →
           isArray data = true ∨ json_truthy data = false) :
  ∃ r, getRecommendations sb api = Fulfilled r
    ∧ isArray (r_data r) = true
    ∧ (sb = Fulfilled JNull → r_data r = JArray [])
    ∧ match r_error r with
      | Some e => api = Rejected e ∧ ∃ e', sb = Rejected e'
      | None => (∃ data, sb = Fulfilled data) ∨ (∃ d, api = Fulfilled d)
      end.
Proof.
  destruct sb as [data|e]; simpl.
  - eexists; split; [done|]; simpl. split_and!.
    + destruct (Hsb data eq_refl) as [Ha|Hf]; unfold json_or.
      * by destruct data.
      * by rewrite Hf.
    + by intros [= ->].
    + left; eauto.
  - destruct api as [d|e']; eexists; (split; [done|]); simpl; split_and!;
      try done; eauto.
    destruct (decode_is_array d) as [items ->]. done.
Qed.

Lemma getRecommendations_always_array_example :
  (∀ data, @Rejected json "offline" = Fulfilled data →
           isArray data = true ∨ json_truthy data = false)
  ∧ ∃ r, getRecommendations (Rejected "offline") (Fulfilled envelope_mixed)
         = Fulfilled r
       ∧ isArray (r_data r) = true.
Proof.
  assert (∀ data, @Rejected json "offline" = Fulfilled data →
           isArray data = true ∨ json_truthy data = false) as Hsb
    by (intros data Hd; discriminate Hd).
  split; [exact Hsb|].
  destruct (getRecommendations_always_array (Rejected "offline")
              (Fulfilled envelope_mixed) Hsb) as (r & Hr & Ha & _).
  exists r. split; [exact Hr|exact Ha].
Defined.

(** X15. The four response structures the decoder names are decoded to
    their array: the direct array, the array under [data], the array under
    [data.data], and the array under [recommendations] when [data] is
    missing or falsy. *)
Theorem decode_documented_shapes (items : list json)
    (o o' : list (string * json)) :
  decodeRecommendations (JArray items) = JArray items
  ∧ (props_get o "data" = JArray items →
     decodeRecommendations (JObject o) = JArray items)
  ∧ (props_get o "data" = JObject o' → props_get o' "data" = JArray items →
     decodeRecommendations (JObject o) = JArray items)
  ∧ (json_truthy (props_get o "data") = false →
     props_get o "recommendations" = JArray items →
     decodeRecommendations (JObject o) = JArray items).
Proof.
  unfold decodeRecommendations, json_or; simpl. split_and!.
  - done.
  - by intros ->.
  - intros H1 H2. rewrite H1; simpl. by rewrite H2.
  - intros Hd Hr. rewrite Hr.
    destruct (props_get o "data"); simpl in *; by rewrite ?Hd.
Qed.

Lemma decode_documented_shapes_example :
  decodeRecommendations
    (JObject [("success", JBool true);
              ("data", JObject [("count", JNumber (Fin 1));
                                ("data", JArray [JString "plant trees"])])])
  = JArray [JString "plant trees"].
Proof.
  destruct (decode_documented_shapes [JString "plant trees"]
    [("success", JBool true);
     ("data", JObject [("count", JNumber (Fin 1));
                       ("data", JArray [JString "plant trees"])])]
    [("count", JNumber (Fin 1)); ("data", JArray [JString "plant trees"])])
    as (_ & _ & H & _).
  exact (H eq_refl eq_refl).
Defined.

(** X16. Decoding what the decoder returned gives the same array again. *)
Theorem decode_idempotent (d : json) :
  decodeRecommendations (decodeRecommendations d) = decodeRecommendations d.
Proof. by destruct (decode_is_array d) as [items ->]. Qed.

(** X17. [getDashboardSummary] never reports an error: each of its five
    calls catches its own failures, so the summary is always fulfilled with
    [error: null], and when every request fails its fields are null, null
    and three empty arrays. *)
Theorem dashboardSummary_never_fails (s : sources) :
  (∃ h r f a rc,
     dashboardSummary s
     = Fulfilled {| r_data := JObject [("health", h); ("risk", r);
                                       ("forecast", f); ("alerts", a);
                                       ("recommendations", rc)];
                    r_error := None |})
  ∧ (Forall (λ x, is_rejected x = true)
       [sb_health s; api_health s; sb_risk s; api_risk s; sb_forecast s;
        api_forecast s; sb_alerts s; sb_recommendations s;
        api_recommendations s] →
     dashboardSummary s
     = Fulfilled {| r_data := JObject [("health", JNull); ("risk", JNull);
                                       ("forecast", JArray []);
                                       ("alerts", JArray []);
                                       ("recommendations", JArray [])];
                    r_error := None |}).
Proof.
  unfold dashboardSummary.
  destruct s as [sh ah sr ar sf af sa src arc]; simpl. split.
  - destruct sh, ah, sr, ar, sf, af, sa, src, arc; simpl; by repeat eexists.
  - rewrite !Forall_cons. intros (?&?&?&?&?&?&?&?&?&_).
    by destruct sh, ah, sr, ar, sf, af, sa, src, arc.
Qed.

Lemma dashboardSummary_never_fails_example :
  dashboardSummary all_failing
  = Fulfilled {| r_data := JObject [("health", JNull); ("risk", JNull);
                                    ("forecast", JArray []);
                                    ("alerts", JArray []);
                                    ("recommendations", JArray [])];
                 r_error := None |}.
Proof.
  destruct (dashboardSummary_never_fails all_failing) as [_ H].
  apply H. repeat constructor.
Defined.

(** ** The callers *)

Lemma getRecommendations_data_array (sb api : settled json) (r : reply) :
  (∀ data, sb = Fulfilled data →
           isArray data = true ∨ json_truthy data = false) →
  getRecommendations sb api = Fulfilled r →
  ∃ items, r_data r = JArray items.
Proof.
  intros Hsb. destruct sb as [data|e]; simpl.
  - intros [= <-]; simpl. unfold json_or.
    destruct (Hsb data eq_refl) as [Ha|Hf].
    + destruct data; try done. simpl. eauto.
    + rewrite Hf. eauto.
  - destruct api as [d|e']; intros [= <-]; simpl; [|eauto].
    apply decode_is_array.
Qed.

Lemma wrap_is_array (c : json) :
  ∃ l, (if isArray c then c
        else if json_truthy c then JArray [c] else JArray []) = JArray l.
Proof.
  destruct c as [| |b|n|s|items|o]; simpl; eauto.
  - destruct b; eauto.
  - destruct (num_truthy n); eauto.
  - destruct (negb _); eauto.
Qed.

Lemma normalizeRecommendations_array (items : list json) (e : option string) :
  normalizeRecommendations
    (reply_json {| r_data := JArray items; r_error := e |})
  = match items with
    | first :: _ => if keys_throws first then None else Some (JArray items)
    | [] => Some (JArray [])
    end.
Proof. destruct e, items; done. Qed.

Lemma normalizeRecommendations_shape (response : json) :
  normalizeRecommendations response = None
  ∨ ∃ l, normalizeRecommendations response = Some (JArray l).
Proof.
  unfold normalizeRecommendations.
  match goal with
  | |- context [if isArray ?c then _ else _] =>
      destruct (wrap_is_array c) as [l ->]
  end.
  destruct l as [|first l]; [right; eauto|].
  destruct (keys_throws first); [by left|right; eauto].
Qed.

(** X18. [normalizeRecommendations] returns an array for every response,
    unless it throws: it logs [Object.keys] of the first item, which fails
    when that item is null.  For what [getRecommendations] returns (Supabase
    answering with an array or null) it returns exactly the [data] array of
    that reply, so the list shown is the list fetched; with a null first
    item [loadRecommendations] catches the error and stores the empty array
    and an error message.  [loadRecommendations] stores an array in every
    case. *)
Theorem normalizeRecommendations_of_reply (response : json)
    (sb api : settled json) (r : reply) (outcome : settled reply)
    (Hsb : ∀ data, sb = Fulfilled data →
           isArray data = true ∨ json_truthy data = false)
    (Hr : getRecommendations sb api = Fulfilled r) :
  (normalizeRecommendations response = None
   ∨ ∃ l, normalizeRecommendations response = Some (JArray l))
  ∧ (∃ items, r_data r = JArray items
      ∧ match items with
        | first :: _ =>
            if keys_throws first
            then normalizeRecommendations (reply_json r) = None
                 ∧ loadRecommendations (Fulfilled r) = (JArray [], true)
            else normalizeRecommendations (reply_json r) = Some (r_data r)
                 ∧ loadRecommendations (Fulfilled r) = (r_data r, false)
        | [] =>
            normalizeRecommendations (reply_json r) = Some (JArray [])
            ∧ loadRecommendations (Fulfilled r) = (JArray [], false)
        end)
  ∧ (∃ l, (loadRecommendations outcome).1 = JArray l).
Proof.
  split_and!.
  - apply normalizeRecommendations_shape.
  - destruct (getRecommendations_data_array sb api r Hsb Hr) as [items Hd].
    exists items. split; [done|].
    destruct r as [d e]. simpl in Hd. subst d.
    unfold loadRecommendations. rewrite normalizeRecommendations_array.
    destruct items as [|first items]; [done|]. by destruct (keys_throws first).
  - unfold loadRecommendations. destruct outcome as [r'|e]; [|simpl; eauto].
    destruct (normalizeRecommendations_shape (reply_json r')) as [->|[l ->]];
      simpl; eauto.
Qed.

Lemma normalizeRecommendations_of_reply_example :
  normalizeRecommendations
    (reply_json {| r_data := JArray [JObject [("location_id", JString "L1")]];
                   r_error := None |})
  = Some (JArray [JObject [("location_id", JString "L1")]]).
Proof.
  assert (∀ data, @Rejected json "offline" = Fulfilled data →
           isArray data = true ∨ json_truthy data = false) as Hsb
    by (intros data Hd; discriminate Hd).
  destruct (normalizeRecommendations_of_reply JNull (Rejected "offline")
              (Fulfilled envelope_mixed) _ (Rejected "offline") Hsb eq_refl)
    as (_ & (items & Hitems & H) & _).
  injection Hitems as <-. exact (proj1 H).
Defined.

(** X19. When Supabase and the fallback both fail, [getLatestHealth] and
    [getLatestRisk] return [{ data: null, error }], and the dashboard's
    [normalizeResponse] falls through its [??] chain to that reply object
    itself: it, not null, is what [setHealth] or [setRisk] receives.  A
    record Supabase delivers (one without a [data] property) is passed on as
    it is. *)
Theorem failed_latest_passes_envelope (e e' : string)
    (o : list (string * json)) (api : settled json) :
  (∃ r, getLatestHealth (Rejected e) (Rejected e') = Fulfilled r
      ∧ getLatestRisk (Rejected e) (Rejected e') = Fulfilled r
      ∧ r_data r = JNull
      ∧ processLatest (reply_json r) = Some (reply_json r))
  ∧ (props_get o "data" = JUndefined →
     ∃ r, getLatestHealth (Fulfilled (JObject o)) api = Fulfilled r
        ∧ getLatestRisk (Fulfilled (JObject o)) api = Fulfilled r
        ∧ processLatest (reply_json r) = Some (JObject o)).
Proof.
  split.
  - eexists. by split_and!.
  - intros Hd. eexists. split_and!; [done..|].
    unfold processLatest, normalizeResponse; simpl. by rewrite Hd.
Qed.

Lemma failed_latest_passes_envelope_example :
  ∃ r, getLatestHealth (Fulfilled (JObject [("health_score", JNumber (Fin 72))]))
         (Rejected "unused") = Fulfilled r
    ∧ processLatest (reply_json r)
      = Some (JObject [("health_score", JNumber (Fin 72))]).
Proof.
  destruct (failed_latest_passes_envelope "a" "b"
              [("health_score", JNumber (Fin 72))] (Rejected "unused"))
    as [_ H].
  destruct (H eq_refl) as (r & Hh & _ & Hp).
  exists r. split; [exact Hh|exact Hp].
Defined.

(** X20. The dashboard's initial forecast load keeps one record: the
    forecast array Supabase delivers goes through [normalizeResponse], which
    takes [data[0]] of an array, and the result is wrapped again, so
    [setForecast] receives the first record alone (or the empty array). *)
Theorem forecast_load_keeps_first_record (items : list json)
    (api : settled json) (Hrecords : Forall (λ x, is_object x = true) items) :
  ∃ r, getClimateForecast (Fulfilled (JArray items)) api = Fulfilled r
    ∧ processForecast (reply_json r) = Some (JArray (take 1 items)).
Proof.
  eexists. split; [done|].
  unfold processForecast, normalizeResponse; simpl.
  destruct Hrecords as [|x items Hx _]; [done|].
  by destruct x.
Qed.

Lemma forecast_load_keeps_first_record_example :
  Forall (λ x, is_object x = true)
    [day "2025-01-01"; day "2025-01-02"; day "2025-01-03"]
  ∧ ∃ r, getClimateForecast
           (Fulfilled (JArray [day "2025-01-01"; day "2025-01-02"; day "2025-01-03"]))
           (Rejected "unused") = Fulfilled r
       ∧ processForecast (reply_json r) = Some (JArray [day "2025-01-01"]).
Proof.
  assert (Forall (λ x, is_object x = true)
            [day "2025-01-01"; day "2025-01-02"; day "2025-01-03"]) as H
    by (repeat constructor).
  split; [exact H|].
  exact (forecast_load_keeps_first_record _ (Rejected "unused") H).
Defined.

(** X21. [RiskChart] always stores an array: the array Supabase delivered
    when it answered with one, the array under [data] of a fallback
    envelope, and the empty array for any other reply of [getRiskTrend],
    failure included. *)
Theorem loadRiskData_always_array (sb api : settled json) (r : reply)
    (Hr : getRiskTrend sb api = Fulfilled r) :
  (∃ l, loadRiskData (reply_json r) = JArray l)
  ∧ match r_data r with
    | JArray items => loadRiskData (reply_json r) = JArray items
    | JObject o =>
        match props_get o "data" with
        | JArray items => loadRiskData (reply_json r) = JArray items
        | _ => loadRiskData (reply_json r) = JArray []
        end
    | _ => loadRiskData (reply_json r) = JArray []
    end
  ∧ (is_rejected sb = true → is_rejected api = true → r_data r = JArray []).
Proof.
  assert (∀ d e, loadRiskData (reply_json {| r_data := d; r_error := e |})
                 = match d with
                   | JArray items => JArray items
                   | JObject o =>
                       match props_get o "data" with
                       | JArray items => JArray items
                       | _ => JArray []
                       end
                   | _ => JArray []
                   end) as Hload.
  { intros d e. unfold loadRiskData, reply_json; simpl.
    destruct d; try done. simpl. by destruct (props_get props "data"). }
  destruct r as [d e]. rewrite Hload. simpl. split_and!.
  - destruct d; eauto. destruct (props_get props "data"); eauto.
  - destruct d; try done. by destruct (props_get props "data").
  - destruct sb, api; try done. simpl in Hr. by intros _ _; injection Hr as <- _.
Qed.

Lemma loadRiskData_always_array_example :
  getRiskTrend (Rejected "offline") (Rejected "timeout")
    = Fulfilled {| r_data := JArray []; r_error := Some "offline" |}
  ∧ loadRiskData (reply_json {| r_data := JArray []; r_error := Some "offline" |})
    = JArray [].
Proof.
  assert (getRiskTrend (Rejected "offline") (Rejected "timeout")
          = Fulfilled {| r_data := JArray []; r_error := Some "offline" |}) as Hr
    by reflexivity.
  split; [exact Hr|].
  destruct (loadRiskData_always_array _ _ _ Hr) as (_ & H & _).
  exact H.
Defined.

(** X22. [ClimateChart] reads [response.data.data]: when [getClimateForecast]
    returns an array as [data] (Supabase answering, or both sources
    failing), the chart's data become undefined; when [data] is null the
    read throws and the data stay as they were; only an object under [data]
    hands its own [data] property on. *)
Theorem loadClimateData_reads_nested (sb api : settled json) (r : reply)
    (Hr : getClimateForecast sb api = Fulfilled r) :
  match r_data r with
  | JArray _ => loadClimateData (reply_json r) = Some JUndefined
  | JNull | JUndefined => loadClimateData (reply_json r) = None
  | JObject o => loadClimateData (reply_json r) = Some (props_get o "data")
  | _ => loadClimateData (reply_json r) = Some JUndefined
  end
  ∧ (is_rejected sb = true → is_rejected api = true →
     loadClimateData (reply_json r) = Some JUndefined).
Proof.
  destruct r as [d e]. split.
  - by destruct d.
  - destruct sb, api; try done. simpl in Hr. by intros _ _; injection Hr as <- _.
Qed.

Lemma loadClimateData_reads_nested_example :
  getClimateForecast (Fulfilled (JArray [day "2025-01-01"])) (Rejected "unused")
    = Fulfilled {| r_data := JArray [day "2025-01-01"]; r_error := None |}
  ∧ loadClimateData
      (reply_json {| r_data := JArray [day "2025-01-01"]; r_error := None |})
    = Some JUndefined.
Proof.
  assert (getClimateForecast (Fulfilled (JArray [day "2025-01-01"]))
            (Rejected "unused")
          = Fulfilled {| r_data := JArray [day "2025-01-01"]; r_error := None |})
    as Hr by reflexivity.
  split; [exact Hr|].
  destruct (loadClimateData_reads_nested _ _ _ Hr) as [H _].
  exact H.
Defined.
